(** * Verification of scripts/update_yeongeum720.mjs

    The source file holds three successive revisions of the update script
    concatenated.  The model follows the second revision (lines 420-783):
    whole-text scan with proximity association of bonus lines, round-keyed
    merge sorted ascending, [rankCounts]/[buildFreq] over zero-initialised
    count objects, and [recommendFromFreq] guarded by the zero-round check.

    JavaScript strings are sequences of UTF-16 code units; they are modelled
    as [list Z].  Array indices and string positions are [nat]; gaps between
    positions are [Z]; the numbers of the command line ([--recommend],
    [--cycle]) and the arithmetic of [recommendFromFreq] on them are binary64
    values ([num]).  A thrown
    exception is the [Throw] constructor of [js_result]; [undefined] read out
    of an array is [None]. *)

From Stdlib Require Import Ascii String.
From Stdlib Require Import List ZArith Lia Bool Sorted Permutation.
From Stdlib Require Import SpecFloat.
Import ListNotations.
Open Scope Z_scope.

(** ** JavaScript values and errors *)

Inductive js_error :=
| ParseFailed   (* "Failed to parse draws from primary source" *)
| NoData        (* "추천할 데이터가 없습니다 ..." *)
| TypeError.    (* property access on undefined *)

Inductive js_result (A : Type) :=
| Ok (a : A)
| Throw (e : js_error).
Arguments Ok {A} a.
Arguments Throw {A} e.

Definition bind {A B} (m : js_result A) (k : A -> js_result B) : js_result B :=
  match m with Ok a => k a | Throw e => Throw e end.

Notation "x <- m ;; k" := (bind m (fun x => k))
  (at level 61, m at next level, right associativity).

Definition jstr := list Z.

(** ASCII text as UTF-16 code units. *)
Fixpoint codes (s : string) : jstr :=
  match s with
  | EmptyString => []
  | String c s' => Z.of_nat (nat_of_ascii c) :: codes s'
  end.

(** The Hangul syllables used by the patterns (all in the BMP). *)
Definition u_hoe : Z := 54924.   (* 회 *)
Definition u_deung : Z := 46321. (* 등 *)
Definition u_bo : Z := 48372.    (* 보 *)
Definition u_neo : Z := 45320.   (* 너 *)
Definition u_seu : Z := 49828.   (* 스 *)
Definition u_gak : Z := 44033.   (* 각 *)
Definition u_jo : Z := 51312.    (* 조 *)

Definition PRIMARY_SOURCE_URL : jstr := codes "https://signalfire85.tistory.com/277".

(** [\d] : ASCII digits only. *)
Definition is_digit (c : Z) : bool := (48 <=? c) && (c <=? 57).

(** [\s] : WhiteSpace and LineTerminator code points of ECMAScript. *)
Definition is_space (c : Z) : bool :=
  (9 <=? c) && (c <=? 13) || (c =? 32) || (c =? 160) || (c =? 5760)
  || (8192 <=? c) && (c <=? 8202) || (c =? 8232) || (c =? 8233)
  || (c =? 8239) || (c =? 8287) || (c =? 12288) || (c =? 65279).

Definition is_1to5 (c : Z) : bool := (49 <=? c) && (c <=? 53).

(** Decimal value of a digit string, as [Number(m[k])] on a [\d+] capture. *)
Definition js_Number_digits (s : jstr) : nat :=
  fold_left (fun acc c => (10 * acc + Z.to_nat (c - 48))%nat) s 0%nat.

(** [String(n)] for a non-negative integer. *)
Fixpoint digits_rev (fuel n : nat) : list nat :=
  match fuel with
  | O => []
  | S f => if (n <? 10)%nat then [n] else (n mod 10)%nat :: digits_rev f (n / 10)
  end.

Definition js_String_nat (n : nat) : jstr :=
  map (fun d => 48 + Z.of_nat d) (rev (digits_rev (S n) n)).

(** ** A backtracking matcher for the patterns of the script

    The patterns only quantify single-character atoms, so a pattern is a flat
    list of items: a character class with a greedy [{min,max}] quantifier,
    the opening or closing of capture group [g], and the anchors [^] and [$].
    A greedy quantifier first takes the longest run and backtracks one
    character at a time, as the ECMAScript RepeatMatcher does. *)

Inductive ritem :=
| RAtom (cls : Z -> bool) (mn : nat) (mx : option nat)
| ROpen (g : nat)
| RClose (g : nat)
| RBegin
| REnd.

Record rstate := { opened : list (nat * nat); caps : list (nat * (nat * nat)) }.

Fixpoint assoc_nat {A} (k : nat) (l : list (nat * A)) : option A :=
  match l with
  | [] => None
  | (k', v) :: t => if Nat.eqb k k' then Some v else assoc_nat k t
  end.

Fixpoint run_len (cls : Z -> bool) (s : jstr) (mx : option nat) : nat :=
  match mx with
  | Some O => O
  | _ =>
    match s with
    | c :: t => if cls c then S (run_len cls t (option_map pred mx)) else O
    | [] => O
    end
  end.

Fixpoint rmatch (its : list ritem) (s : jstr) (pos : nat) (st : rstate)
  : option (nat * rstate) :=
  match its with
  | [] => Some (pos, st)
  | RAtom cls mn mx :: rest =>
    let L := run_len cls (skipn pos s) mx in
    (fix go (k : nat) : option (nat * rstate) :=
       if (k <? mn)%nat then None else
       match rmatch rest s (pos + k) st with
       | Some r => Some r
       | None => match k with O => None | S k' => go k' end
       end) L
  | ROpen g :: rest =>
    rmatch rest s pos {| opened := (g, pos) :: opened st; caps := caps st |}
  | RClose g :: rest =>
    match assoc_nat g (opened st) with
    | Some p0 => rmatch rest s pos {| opened := opened st; caps := (g, (p0, pos)) :: caps st |}
    | None => None
    end
  | RBegin :: rest => if Nat.eqb pos 0 then rmatch rest s pos st else None
  | REnd :: rest => if Nat.eqb pos (length s) then rmatch rest s pos st else None
  end.

Definition rstate0 : rstate := {| opened := []; caps := [] |}.

(** A successful match: start index, end index, captures. *)
Record rmatch_result := { m_index : nat; m_end : nat; m_caps : list (nat * (nat * nat)) }.

(** RegExpBuiltinExec: try every position from [lastIndex] on. *)
Fixpoint exec_from (its : list ritem) (s : jstr) (p : nat) (fuel : nat) : option rmatch_result :=
  match fuel with
  | O => None
  | S f =>
    if (length s <? p)%nat then None else
    match rmatch its s p rstate0 with
    | Some (e, st) => Some {| m_index := p; m_end := e; m_caps := caps st |}
    | None => if (p <? length s)%nat then exec_from its s (S p) f else None
    end
  end.

(** [String.prototype.matchAll] with a global pattern; an empty match
    advances [lastIndex] by one code unit. *)
Fixpoint match_all_from (its : list ritem) (s : jstr) (last : nat) (fuel : nat)
  : list rmatch_result :=
  match fuel with
  | O => []
  | S f =>
    match exec_from its s last (S (length s)) with
    | None => []
    | Some m =>
      let next := if Nat.eqb (m_end m) (m_index m) then S (m_end m) else m_end m in
      m :: match_all_from its s next f
    end
  end.

Definition matchAll (its : list ritem) (s : jstr) : list rmatch_result :=
  match_all_from its s 0 (S (length s)).

(** [m[g]]: the substring captured by group [g]. *)
Definition capture (s : jstr) (m : rmatch_result) (g : nat) : jstr :=
  match assoc_nat g (m_caps m) with
  | Some (a, b) => firstn (b - a) (skipn a s)
  | None => []
  end.

Definition lit (c : Z) : ritem := RAtom (Z.eqb c) 1 (Some 1%nat).
Definition dig1 : ritem := RAtom is_digit 1 (Some 1%nat).
Definition ws : ritem := RAtom is_space 0 None.
Definition grp (g : nat) (body : list ritem) : list ritem := ROpen g :: body ++ [RClose g].

(** [/(\d{1,4})회\s*(\d{4}\.\d{2}\.\d{2})\s*1등\s*([1-5])\s*([0-9])...\s*([0-9])\s*(\d+)/g] *)
Definition reFirst : list ritem :=
  grp 1 [RAtom is_digit 1 (Some 4%nat)] ++ [lit u_hoe; ws]
  ++ grp 2 [RAtom is_digit 4 (Some 4%nat); lit 46; RAtom is_digit 2 (Some 2%nat);
            lit 46; RAtom is_digit 2 (Some 2%nat)]
  ++ [ws; lit 49; lit u_deung; ws]
  ++ grp 3 [RAtom is_1to5 1 (Some 1%nat)]
  ++ [ws] ++ grp 4 [dig1] ++ [ws] ++ grp 5 [dig1] ++ [ws] ++ grp 6 [dig1]
  ++ [ws] ++ grp 7 [dig1] ++ [ws] ++ grp 8 [dig1] ++ [ws] ++ grp 9 [dig1]
  ++ [ws] ++ grp 10 [RAtom is_digit 1 None].

(** [/보너스\s*각조\s*([0-9])\s*...([0-9])\s*(\d+)/g] *)
Definition reBonus : list ritem :=
  [lit u_bo; lit u_neo; lit u_seu; ws; lit u_gak; lit u_jo; ws]
  ++ grp 1 [dig1] ++ [ws] ++ grp 2 [dig1] ++ [ws] ++ grp 3 [dig1]
  ++ [ws] ++ grp 4 [dig1] ++ [ws] ++ grp 5 [dig1] ++ [ws] ++ grp 6 [dig1]
  ++ [ws] ++ grp 7 [RAtom is_digit 1 None].

(** [/^(\d{4})\.(\d{2})\.(\d{2})$/] *)
Definition reYmd : list ritem :=
  [RBegin] ++ grp 1 [RAtom is_digit 4 (Some 4%nat)] ++ [lit 46]
  ++ grp 2 [RAtom is_digit 2 (Some 2%nat)] ++ [lit 46]
  ++ grp 3 [RAtom is_digit 2 (Some 2%nat)] ++ [REnd].

(** [String.prototype.match] with a non-global pattern. *)
Definition js_match (its : list ritem) (s : jstr) : option rmatch_result :=
  exec_from its s 0 (S (length s)).

(** [ymdDotToIso]: "2026.02.19" -> "2026-02-19", otherwise [null]. *)
Definition ymdDotToIso (s : jstr) : option jstr :=
  match js_match reYmd s with
  | None => None
  | Some m => Some (capture s m 1 ++ [45] ++ capture s m 2 ++ [45] ++ capture s m 3)
  end.

(** ** Draw records (DrawRecord of the spec) *)

Record FirstPrize := { group : nat; digits : list nat; winners : nat }.
Record BonusPrize := { b_digits : list nat; b_winners : nat }.

Record Draw := {
  round : nat;
  date : option jstr;
  first : FirstPrize;
  bonus : option BonusPrize;
  source : jstr
}.

(** The objects built from the [matchAll] results (lines 499-514). *)
Record FirstMatch := {
  f_index : nat; f_round : nat; f_dateDot : jstr; f_group : nat;
  f_digits : list nat; f_winners : nat; f_rawLen : nat
}.

Record BonusMatch := {
  bm_index : nat; bm_digits : list nat; bm_winners : nat; bm_rawLen : nat
}.

Definition cap_num (s : jstr) (m : rmatch_result) (g : nat) : nat :=
  js_Number_digits (capture s m g).

Definition to_first (text : jstr) (m : rmatch_result) : FirstMatch :=
  {| f_index := m_index m;
     f_round := cap_num text m 1;
     f_dateDot := capture text m 2;
     f_group := cap_num text m 3;
     f_digits := map (cap_num text m) [4; 5; 6; 7; 8; 9]%nat;
     f_winners := cap_num text m 10;
     f_rawLen := m_end m - m_index m |}.

Definition to_bonus (text : jstr) (m : rmatch_result) : BonusMatch :=
  {| bm_index := m_index m;
     bm_digits := map (cap_num text m) [1; 2; 3; 4; 5; 6]%nat;
     bm_winners := cap_num text m 7;
     bm_rawLen := m_end m - m_index m |}.

(** ** Proximity association of bonus lines (lines 523-552) *)

(** The maximum gap between the end of a primary match and a bonus match. *)
Definition MAX_BONUS_GAP : Z := 200.

(** [while (b < bonusMatches.length && bonusMatches[b].index < f.index) b++;] *)
Fixpoint advance (bms : list BonusMatch) (b : nat) (fi : nat) (fuel : nat) : nat :=
  match fuel with
  | O => b
  | S n =>
    match nth_error bms b with
    | Some m => if (bm_index m <? fi)%nat then advance bms (S b) fi n else b
    | None => b
    end
  end.

Definition mk_draw (f : FirstMatch) (bonus : option BonusPrize) : Draw :=
  {| round := f_round f;
     date := ymdDotToIso (f_dateDot f);
     first := {| group := f_group f; digits := f_digits f; winners := f_winners f |};
     bonus := bonus;
     source := PRIMARY_SOURCE_URL |}.

(** One iteration of [for (const f of firstMatches)]: the cursor [b] is
    returned with the record pushed. *)
Definition assoc_step (bms : list BonusMatch) (b : nat) (f : FirstMatch) : nat * Draw :=
  let b := advance bms b (f_index f) (length bms) in
  match nth_error bms b with
  | Some cand =>
    let fEnd := Z.of_nat (f_index f + f_rawLen f) in
    let dist := Z.of_nat (bm_index cand) - fEnd in
    if (0 <=? dist) && (dist <=? MAX_BONUS_GAP)
    then (S b, mk_draw f (Some {| b_digits := bm_digits cand; b_winners := bm_winners cand |}))
    else (b, mk_draw f None)
  | None => (b, mk_draw f None)
  end.

Fixpoint assoc_from (bms : list BonusMatch) (b : nat) (fs : list FirstMatch) : list Draw :=
  match fs with
  | [] => []
  | f :: rest =>
    let '(b', d) := assoc_step bms b f in
    d :: assoc_from bms b' rest
  end.

(** [let b = 0; const draws = []; for (const f of firstMatches) ...] *)
Definition assoc_loop (fs : list FirstMatch) (bms : list BonusMatch) : list Draw :=
  assoc_from bms 0 fs.

(** ** JavaScript [Map] keyed by round, and stable [Array.prototype.sort]

    A [Map] is an association list in insertion order; [set] on an existing
    key replaces the value in place. *)

Fixpoint map_set {V} (k : nat) (v : V) (m : list (nat * V)) : list (nat * V) :=
  match m with
  | [] => [(k, v)]
  | (k', v') :: t => if Nat.eqb k k' then (k, v) :: t else (k', v') :: map_set k v t
  end.

(** Stable insertion sort with a comparator: [cmp a b > 0] puts [b] first;
    equal elements keep their order (V8's sort is stable). *)
Fixpoint insert_by {A} (cmp : A -> A -> Z) (x : A) (l : list A) : list A :=
  match l with
  | [] => [x]
  | y :: t => if 0 <? cmp y x then x :: y :: t else y :: insert_by cmp x t
  end.

Definition sort_by {A} (cmp : A -> A -> Z) (l : list A) : list A :=
  fold_left (fun acc x => insert_by cmp x acc) l [].

Definition by_round (a b : Draw) : Z := Z.of_nat (round a) - Z.of_nat (round b).

(** [new Map(draws.map((d) => [d.round, d]))] then [[...map.values()].sort(...)] *)
Definition dedup_sort (draws : list Draw) : list Draw :=
  let m := fold_left (fun m d => map_set (round d) d m) draws [] in
  sort_by by_round (map snd m).

(** [fetchDrawsFromPrimary] from the normalised text on (lines 488-557).
    The fetch and [htmlToLooseText]/[normalizeAll] are outside the model: the
    argument is the text the two patterns are run on. *)
Definition extractDraws (text : jstr) : js_result (list Draw) :=
  let firstMatches := map (to_first text) (matchAll reFirst text) in
  let bonusMatches := map (to_bonus text) (matchAll reBonus text) in
  match firstMatches with
  | [] => Throw ParseFailed
  | _ => Ok (dedup_sort (assoc_loop firstMatches bonusMatches))
  end.

(** [303회 2026.02.19 1등 4 6 3 9 5 6 6 1 보너스 각조 6 1 9 1 3 6 10] *)
Definition scenario_text : jstr :=
  codes "303" ++ [u_hoe] ++ codes " 2026.02.19 1" ++ [u_deung]
  ++ codes " 4 6 3 9 5 6 6 1 " ++ [u_bo; u_neo; u_seu] ++ codes " "
  ++ [u_gak; u_jo] ++ codes " 6 1 9 1 3 6 10".

(** ** Frequency aggregation (lines 559-658) *)

(** A count object ([{ "0": 0, ... }]).  All its keys are canonical integer
    strings, so [Object.keys] lists them in ascending numeric order; the
    object is kept as an association list in that order. *)
Definition obj := list (nat * nat).

(** [obj[k] ?? 0] *)
Definition get (o : obj) (k : nat) : nat :=
  match assoc_nat k o with Some v => v | None => 0%nat end.

(** [obj[k] = v]: an existing key keeps its place, a new integer key takes
    its place in ascending order. *)
Fixpoint obj_put (k v : nat) (o : obj) : obj :=
  match o with
  | [] => [(k, v)]
  | (k', v') :: t =>
    if Nat.eqb k k' then (k, v) :: t
    else if (k <? k')%nat then (k, v) :: (k', v') :: t
    else (k', v') :: obj_put k v t
  end.

(** [function inc(obj, k) { obj[k] = (obj[k] ?? 0) + 1; }] *)
Definition inc (o : obj) (k : nat) : obj := obj_put k (S (get o k)) o.

Definition makeEmptyDigitCounts : obj := map (fun d => (d, 0%nat)) (seq 0 10).
Definition makeEmptyGroupCounts : obj := map (fun g => (g, 0%nat)) (seq 1 5).

(** The comparator of [rankCounts]. *)
Definition rank_cmp (o : obj) (a b : nat) : Z :=
  let da := Z.of_nat (get o a) in
  let db := Z.of_nat (get o b) in
  if negb (db =? da) then db - da else Z.of_nat a - Z.of_nat b.

(** [rankCounts]: a list of [{ digit, count }], here pairs. *)
Definition rankCounts (o : obj) : list (nat * nat) :=
  map (fun k => (k, get o k)) (sort_by (rank_cmp o) (map fst o)).

(** [arr[i]] for a list of count objects, [arr[i] = v] on an existing index. *)
Fixpoint list_set {A} (l : list A) (i : nat) (v : A) : list A :=
  match l, i with
  | [], _ => []
  | _ :: t, O => v :: t
  | x :: t, S i' => x :: list_set t i' v
  end.

(** [digits.forEach((digit, idx) => { inc(posCounts[idx], ..); inc(overall, ..); })];
    [posCounts[idx]] beyond the sixth position is [undefined] and [inc]
    throws a TypeError. *)
Fixpoint count_digits (pos : list obj) (overall : obj) (ds : list nat) (idx : nat)
  : js_result (list obj * obj) :=
  match ds with
  | [] => Ok (pos, overall)
  | x :: t =>
    match nth_error pos idx with
    | None => Throw TypeError
    | Some o => count_digits (list_set pos idx (inc o x)) (inc overall x) t (S idx)
    end
  end.

Fixpoint jstr_eqb (a b : jstr) : bool :=
  match a, b with
  | [], [] => true
  | x :: a', y :: b' => (x =? y) && jstr_eqb a' b'
  | _, _ => false
  end.

(** [Map] with string keys (the suffix map [last5Map]). *)
Fixpoint smap_set {V} (k : jstr) (v : V) (m : list (jstr * V)) : list (jstr * V) :=
  match m with
  | [] => [(k, v)]
  | (k', v') :: t => if jstr_eqb k k' then (k, v) :: t else (k', v') :: smap_set k v t
  end.

Fixpoint smap_get {V} (k : jstr) (m : list (jstr * V)) : option V :=
  match m with
  | [] => None
  | (k', v) :: t => if jstr_eqb k k' then Some v else smap_get k t
  end.

(** [d.first.digits.slice(1).join("")] *)
Definition last5_of (ds : list nat) : jstr := concat (map js_String_nat (tl ds)).

Record Acc := {
  a_group : obj; a_pos : list obj; a_overall : obj;
  a_bpos : list obj; a_boverall : obj; a_last5 : list (jstr * nat)
}.

Definition acc0 : Acc :=
  {| a_group := makeEmptyGroupCounts;
     a_pos := repeat makeEmptyDigitCounts 6;
     a_overall := makeEmptyDigitCounts;
     a_bpos := repeat makeEmptyDigitCounts 6;
     a_boverall := makeEmptyDigitCounts;
     a_last5 := [] |}.

(** The body of [for (const d of draws)] in [buildFreq]. *)
Definition freq_step (a : Acc) (d : Draw) : js_result Acc :=
  let g := inc (a_group a) (group (first d)) in
  pc <- count_digits (a_pos a) (a_overall a) (digits (first d)) 0 ;;
  let last5 := last5_of (digits (first d)) in
  let l5 := smap_set last5
              (match smap_get last5 (a_last5 a) with Some c => S c | None => 1%nat end)
              (a_last5 a) in
  match bonus d with
  | None =>
    Ok {| a_group := g; a_pos := fst pc; a_overall := snd pc;
          a_bpos := a_bpos a; a_boverall := a_boverall a; a_last5 := l5 |}
  | Some b =>
    bc <- count_digits (a_bpos a) (a_boverall a) (b_digits b) 0 ;;
    Ok {| a_group := g; a_pos := fst pc; a_overall := snd pc;
          a_bpos := fst bc; a_boverall := snd bc; a_last5 := l5 |}
  end.

Fixpoint freq_fold (a : Acc) (ds : list Draw) : js_result Acc :=
  match ds with
  | [] => Ok a
  | d :: t => a' <- freq_step a d ;; freq_fold a' t
  end.

Record CountStat := { cs_counts : obj; cs_ranked : list (nat * nat) }.
Record PosStat := { ps_name : jstr; ps_counts : obj; ps_ranked : list (nat * nat) }.
Record Rounds := { r_min : option nat; r_max : option nat; r_count : nat }.

(** The object returned by [buildFreq]; [group] of the JSON is [group_stat],
    [bonus.positions]/[bonus.overall] are [bonus_positions]/[bonus_overall],
    [third.last5Top] is [last5Top]. *)
Record Freq := {
  updatedAt : jstr;
  freq_source : jstr;
  rounds : Rounds;
  group_stat : CountStat;
  positions : list PosStat;
  overall : CountStat;
  bonus_positions : list PosStat;
  bonus_overall : CountStat;
  last5Top : list (jstr * nat)
}.

(** [["십만", "만", "천", "백", "십", "일"]] *)
Definition POS_NAMES : list jstr :=
  [[49901; 47564]; [47564]; [52380]; [48177]; [49901]; [51068]].

Definition list_min (l : list nat) : nat := fold_left Nat.min (tl l) (hd 0%nat l).
Definition list_max (l : list nat) : nat := fold_left Nat.max (tl l) (hd 0%nat l).

Definition pos_stats (counts : list obj) : list PosStat :=
  map (fun '(c, name) => {| ps_name := name; ps_counts := c; ps_ranked := rankCounts c |})
      (combine counts POS_NAMES).

(** [[...last5Map.entries()].sort((a, b) => b[1] - a[1]).slice(0, 20)] *)
Definition last5_cmp (a b : jstr * nat) : Z := Z.of_nat (snd b) - Z.of_nat (snd a).

Definition top_last5 (m : list (jstr * nat)) : list (jstr * nat) :=
  firstn 20 (sort_by last5_cmp m).

(** [buildFreq(draws)]; [now] is the value of [nowIso()]. *)
Definition buildFreq (now : jstr) (draws : list Draw) : js_result Freq :=
  a <- freq_fold acc0 draws ;;
  let rs := map round draws in
  Ok {| updatedAt := now;
        freq_source := PRIMARY_SOURCE_URL;
        rounds := match draws with
                  | [] => {| r_min := None; r_max := None; r_count := 0 |}
                  | _ => {| r_min := Some (list_min rs); r_max := Some (list_max rs);
                            r_count := length draws |}
                  end;
        group_stat := {| cs_counts := a_group a; cs_ranked := rankCounts (a_group a) |};
        positions := pos_stats (a_pos a);
        overall := {| cs_counts := a_overall a; cs_ranked := rankCounts (a_overall a) |};
        bonus_positions := pos_stats (a_bpos a);
        bonus_overall := {| cs_counts := a_boverall a; cs_ranked := rankCounts (a_boverall a) |};
        last5Top := top_last5 (a_last5 a) |}.

(** ** JavaScript numbers

    A JavaScript number is an IEEE 754 binary64 value: a [spec_float] with
    53 bits of precision and [emax = 1024], the operations rounding to
    nearest, ties to even. *)
Definition num := spec_float.

(** [x + y] on numbers. *)
Definition js_add (x y : num) : num := SFadd 53 1024 x y.

(** The number an integer denotes (rounded when beyond 2^53). *)
Definition js_of_Z (z : Z) : num := binary_normalize 53 1024 z 0 false.

(** [n % d] (Number::remainder): NaN for a NaN operand, an infinite dividend
    or a zero divisor; [n] for an infinite divisor or a zero dividend;
    otherwise the exact remainder of the truncated division, with the sign
    of the dividend (a zero remainder is a zero of the dividend's sign). *)
Definition js_rem (n d : num) : num :=
  match n, d with
  | S754_nan, _ | _, S754_nan => S754_nan
  | S754_infinity _, _ => S754_nan
  | _, S754_zero _ => S754_nan
  | S754_zero _, _ => n
  | _, S754_infinity _ => n
  | S754_finite sn mn en, S754_finite _ md ed =>
      let e := Z.min en ed in
      let r := Z.rem (Zpos (fst (shl_align mn en e))) (Zpos (fst (shl_align md ed e))) in
      binary_normalize 53 1024 (cond_Zopp sn r) e sn
  end.

(** The element index a number names as a property key: [ToString] of a
    non-negative integer ([-0] prints as "0"); any other number prints as
    "-1", "0.5", "NaN", ..., a key no array element has. *)
Definition js_array_index (x : num) : option Z :=
  match x with
  | S754_zero _ => Some 0
  | S754_finite false m e =>
      if 0 <=? e then Some (Zpos m * 2 ^ e)
      else if Zpos m mod 2 ^ (- e) =? 0 then Some (Zpos m / 2 ^ (- e)) else None
  | _ => None
  end.

(** [Number.isFinite(x)] *)
Definition js_isFinite (x : num) : bool :=
  match x with S754_zero _ | S754_finite _ _ _ => true | _ => false end.

(** [x > 0] *)
Definition js_gt0 (x : num) : bool := SFltb (S754_zero false) x.

(** A value whose mantissa fits in 53 bits and whose exponent is at least the
    subnormal one: every binary64 value, and every result of rounding. *)
Definition js_nice (x : num) : Prop :=
  match x with S754_finite _ m e => Zpos m < 2 ^ 53 /\ -1074 <= e | _ => True end.

(** ** Recommendation (lines 660-695) *)

Inductive Tier := Top | TopMix | Mix.

(** [arr[x]] with a number [x]: the element at the index [x] names, and
    [undefined] past the end or when [x] names no index (a negative or
    fractional number, NaN). *)
Definition js_index {A} (l : list A) (x : num) : option A :=
  match js_array_index x with
  | Some k => if k <? Z.of_nat (length l) then nth_error l (Z.to_nat k) else None
  | None => None
  end.

(** [pickIndex(tier, pos, idx, len)] *)
Definition pickIndex (tier : Tier) (pos : nat) (idx : num) (len : nat) : num :=
  if (len <=? 1)%nat then js_of_Z 0 else
  let span := Z.of_nat match tier with
                       | Top => Nat.min 1 len
                       | TopMix => Nat.min 3 len
                       | Mix => Nat.min 6 len
                       end in
  let tailBias := if (4 <=? pos)%nat then 0 else 1 in
  js_rem (js_add (js_add idx (js_of_Z (Z.of_nat pos * 2))) (js_of_Z tailBias)) (js_of_Z span).

(** A ticket [{ group, digits }]; [None] is [undefined]. *)
Record Ticket := { t_group : option nat; t_digits : list (option nat) }.

Fixpoint traverse {A B} (f : A -> js_result B) (l : list A) : js_result (list B) :=
  match l with
  | [] => Ok []
  | x :: t => y <- f x ;; ys <- traverse f t ;; Ok (y :: ys)
  end.

Definition tier_of (n : nat) : Tier :=
  if Nat.eqb n 1 then Top else if Nat.eqb n 5 then TopMix else Mix.

Definition ticket_at (groupRank : list nat) (posRank : list (list nat)) (tier : Tier)
    (cycle : num) (i : nat) : js_result Ticket :=
  let idx := js_add cycle (js_of_Z (Z.of_nat i)) in
  let group := js_index groupRank (js_rem idx (js_of_Z (Z.of_nat (length groupRank)))) in
  digits <- traverse (fun p =>
              match nth_error posRank p with
              | None => Throw TypeError          (* [r.length] on undefined *)
              | Some r => Ok (js_index r (pickIndex tier (S p) idx (length r)))
              end) (seq 0 6) ;;
  Ok {| t_group := group; t_digits := digits |}.

(** [recommendFromFreq(freq, n, cycle)] *)
Definition recommendFromFreq (freq : Freq) (n : nat) (cycle : num) : js_result (list Ticket) :=
  if Nat.eqb (r_count (rounds freq)) 0 then Throw NoData else
  let groupRank := map fst (cs_ranked (group_stat freq)) in
  let posRank := map (fun p => map fst (ps_ranked p)) (positions freq) in
  let tier := tier_of n in
  traverse (ticket_at groupRank posRank tier cycle) (seq 0 n).

(** ** The update run of [main] (lines 739-779)

    The files are the state: [draws_file] holds the parsed content of
    [yeongeum720_draws.json] ([None] when missing; [safeJsonParse] falls back
    to [[]]), [freq_file] the last written frequency table. *)
Record FS := { draws_file : option (list Draw); freq_file : option Freq }.

(** [parseArgs]: [--recommend] and [--cycle] are read with [Number(...)]. *)
Record Args := { noUpdate : bool; recommend : num; cycle : num }.

(** Round-keyed merge of [main]:
    [for (const d of draws) map.set(d.round, d); for (const d of fetched) ...;
     draws = [...map.values()].sort((a, b) => a.round - b.round);] *)
Definition merge (persisted fetched : list Draw) : list Draw :=
  let m := fold_left (fun m d => map_set (round d) d m) persisted [] in
  let m := fold_left (fun m d => map_set (round d) d m) fetched m in
  sort_by by_round (map snd m).

(** [main()] with the page text the fetch returned and the value of
    [nowIso()]; the result is the final file state and either the three
    recommendation lists or the error [main] rejects with. *)
Definition main (args : Args) (text : jstr) (now : jstr) (fs : FS)
  : FS * js_result (option (list Ticket * list Ticket * list Ticket)) :=
  let draws := match draws_file fs with Some ds => ds | None => [] end in
  let step1 :=
    if noUpdate args then Ok (draws, fs) else
    fetched <- extractDraws text ;;
    let merged := merge draws fetched in
    Ok (merged, {| draws_file := Some merged; freq_file := freq_file fs |}) in
  match step1 with
  | Throw e => (fs, Throw e)
  | Ok (draws, fs1) =>
    match buildFreq now draws with
    | Throw e => (fs1, Throw e)
    | Ok freq =>
      let fs2 := {| draws_file := draws_file fs1; freq_file := Some freq |} in
      if js_gt0 (recommend args) then
        let cycle := if js_isFinite (cycle args) then cycle args else js_of_Z 0 in
        (fs2, rec1 <- recommendFromFreq freq 1 cycle ;;
              rec5 <- recommendFromFreq freq 5 cycle ;;
              rec10 <- recommendFromFreq freq 10 cycle ;;
              Ok (Some (rec1, rec5, rec10)))
      else (fs2, Ok None)
    end
  end.

(** * Proofs *)

(** ** The stable insertion sort *)

Section SortBy.
Context {A : Type} (cmp : A -> A -> Z).

Lemma insert_by_perm (x : A) (l : list A) : Permutation (x :: l) (insert_by cmp x l).
Proof.
  induction l as [|y t IH]; simpl; [reflexivity|].
  destruct (0 <? cmp y x); [reflexivity|].
  rewrite perm_swap. constructor. exact IH.
Qed.

Lemma sort_by_perm_acc (l acc : list A) :
  Permutation (l ++ acc) (fold_left (fun acc x => insert_by cmp x acc) l acc).
Proof.
  revert acc; induction l as [|x t IH]; intros acc; simpl; [reflexivity|].
  eapply perm_trans; [|apply IH].
  eapply perm_trans; [apply Permutation_middle|].
  apply Permutation_app_head, insert_by_perm.
Qed.

Lemma sort_by_perm (l : list A) : Permutation l (sort_by cmp l).
Proof. unfold sort_by. rewrite <- sort_by_perm_acc. now rewrite app_nil_r. Qed.

Definition cmp_le (a b : A) : Prop := cmp a b <= 0.

Hypothesis cmp_flip : forall a b, 0 < cmp b a -> cmp a b <= 0.
Hypothesis cmp_trans : forall a b c, cmp a b <= 0 -> cmp b c <= 0 -> cmp a c <= 0.

Lemma insert_by_sorted (x : A) (l : list A) :
  Sorted cmp_le l -> Sorted cmp_le (insert_by cmp x l).
Proof.
  induction l as [|y t IH]; simpl; intros Hs.
  - repeat constructor.
  - case_eq (0 <? cmp y x); intros Hc.
    + apply Z.ltb_lt in Hc. constructor; [exact Hs|]. constructor.
      unfold cmp_le. now apply cmp_flip.
    + apply Z.ltb_ge in Hc. apply Sorted_inv in Hs as [Hs Hh].
      constructor; [now apply IH|].
      destruct t as [|z t']; simpl.
      * constructor. exact Hc.
      * apply HdRel_inv in Hh.
        destruct (0 <? cmp z x); constructor; assumption.
Qed.

Lemma sort_by_sorted (l : list A) : Sorted cmp_le (sort_by cmp l).
Proof.
  unfold sort_by.
  assert (H : forall acc, Sorted cmp_le acc ->
            Sorted cmp_le (fold_left (fun acc x => insert_by cmp x acc) l acc)).
  { induction l as [|x t IH]; intros acc Hacc; simpl; [exact Hacc|].
    apply IH. now apply insert_by_sorted. }
  apply H. constructor.
Qed.

Lemma sort_by_strongly_sorted (l : list A) : StronglySorted cmp_le (sort_by cmp l).
Proof.
  apply Sorted_StronglySorted; [|apply sort_by_sorted].
  intros a b c; unfold cmp_le; apply cmp_trans.
Qed.
End SortBy.

(** Stability for a comparator on a numeric key, descending:
    the elements of one key keep their input order. *)
Section StableDesc.
Context {A : Type} (key : A -> nat).

Definition desc_cmp (a b : A) : Z := Z.of_nat (key b) - Z.of_nat (key a).

Definition with_key (c : nat) (l : list A) : list A :=
  filter (fun a => Nat.eqb (key a) c) l.

Lemma sorted_desc_head_bound (y : A) (t : list A) :
  Sorted (cmp_le desc_cmp) (y :: t) -> Forall (fun z => key z <= key y)%nat t.
Proof.
  intros Hs. apply Sorted_StronglySorted in Hs.
  - apply StronglySorted_inv in Hs as [_ Hf].
    eapply Forall_impl; [|exact Hf]. unfold cmp_le, desc_cmp; intros; lia.
  - intros a b c; unfold cmp_le, desc_cmp; lia.
Qed.

Lemma with_key_below (c : nat) (l : list A) :
  Forall (fun z => key z < c)%nat l -> with_key c l = [].
Proof.
  induction 1 as [|z t Hz _ IH]; [reflexivity|].
  unfold with_key; simpl.
  replace (Nat.eqb (key z) c) with false by (symmetry; apply Nat.eqb_neq; lia).
  exact IH.
Qed.

Lemma insert_desc_with_key (x : A) (l : list A) (c : nat) :
  Sorted (cmp_le desc_cmp) l ->
  with_key c (insert_by desc_cmp x l)
  = with_key c l ++ (if Nat.eqb (key x) c then [x] else []).
Proof.
  induction l as [|y t IH]; intros Hs.
  - simpl. destruct (Nat.eqb (key x) c); reflexivity.
  - cbn [insert_by]. unfold desc_cmp at 1.
    case_eq (0 <? Z.of_nat (key x) - Z.of_nat (key y)); intros Hc.
    + apply Z.ltb_lt in Hc.
      assert (Hnone : with_key c (y :: t) = [] \/ Nat.eqb (key x) c = false).
      { case_eq (Nat.eqb (key x) c); intros Hx; [left|right; reflexivity].
        apply Nat.eqb_eq in Hx.
        apply with_key_below.
        constructor; [lia|].
        eapply Forall_impl; [|exact (sorted_desc_head_bound y t Hs)]. intros ? Hz; cbv beta in *; lia. }
      change (with_key c (x :: y :: t)) with
        (if Nat.eqb (key x) c then x :: with_key c (y :: t) else with_key c (y :: t)).
      destruct Hnone as [Hn|Hn].
      * rewrite Hn. destruct (Nat.eqb (key x) c); reflexivity.
      * rewrite Hn. now rewrite app_nil_r.
    + apply Sorted_inv in Hs as [Hs _].
      change (with_key c (y :: insert_by desc_cmp x t)) with
        (if Nat.eqb (key y) c then y :: with_key c (insert_by desc_cmp x t)
         else with_key c (insert_by desc_cmp x t)).
      change (with_key c (y :: t)) with
        (if Nat.eqb (key y) c then y :: with_key c t else with_key c t).
      rewrite (IH Hs). destruct (Nat.eqb (key y) c); reflexivity.
Qed.

Lemma sort_desc_with_key (l : list A) (c : nat) :
  with_key c (sort_by desc_cmp l) = with_key c l.
Proof.
  unfold sort_by.
  assert (H : forall acc, Sorted (cmp_le desc_cmp) acc ->
            with_key c (fold_left (fun acc x => insert_by desc_cmp x acc) l acc)
            = with_key c acc ++ with_key c l).
  { induction l as [|x t IH]; intros acc Hacc; simpl.
    - now rewrite app_nil_r.
    - rewrite IH.
      + rewrite insert_desc_with_key by exact Hacc.
        rewrite <- app_assoc. f_equal. unfold with_key at 3. simpl.
        destruct (Nat.eqb (key x) c); reflexivity.
      + apply insert_by_sorted; try exact Hacc; unfold desc_cmp; intros; lia. }
  rewrite H by constructor. reflexivity.
Qed.
End StableDesc.

Lemma strongly_sorted_strict {A} (R R' : A -> A -> Prop) (f : A -> nat) (l : list A) :
  (forall a b, R a b -> f a <> f b -> R' a b) ->
  StronglySorted R l -> NoDup (map f l) -> StronglySorted R' l.
Proof.
  intros HR Hs. induction Hs as [|a t Ht IH Hf]; intros Hn; constructor.
  - apply IH. now inversion Hn.
  - inversion Hn as [|? ? Hnin _]; subst.
    apply Forall_forall. intros b Hb. apply HR.
    + exact (proj1 (Forall_forall _ _) Hf b Hb).
    + intros He. apply Hnin. rewrite He. now apply in_map.
Qed.

(** ** The round-keyed [Map] *)

(** The last record of [l] with round [r]: the one a sequence of
    [map.set(d.round, d)] leaves under key [r]. *)
Fixpoint last_with (r : nat) (l : list Draw) : option Draw :=
  match l with
  | [] => None
  | d :: t =>
    match last_with r t with
    | Some x => Some x
    | None => if Nat.eqb (round d) r then Some d else None
    end
  end.

Definition set_round (m : list (nat * Draw)) (d : Draw) : list (nat * Draw) :=
  map_set (round d) d m.

Lemma assoc_map_set {V} (r k : nat) (v : V) (m : list (nat * V)) :
  assoc_nat r (map_set k v m) = if Nat.eqb r k then Some v else assoc_nat r m.
Proof.
  induction m as [|[k' v'] t IH]; simpl.
  - reflexivity.
  - case_eq (Nat.eqb k k'); intros Hk; simpl.
    + apply Nat.eqb_eq in Hk; subst k'. destruct (Nat.eqb r k); reflexivity.
    + rewrite IH. case_eq (Nat.eqb r k'); intros Hr; [|reflexivity].
      apply Nat.eqb_eq in Hr; subst r.
      replace (Nat.eqb k' k) with false; [reflexivity|].
      symmetry. apply Nat.eqb_neq. intros ->. now rewrite Nat.eqb_refl in Hk.
Qed.

Lemma last_with_round (r : nat) (l : list Draw) (d : Draw) :
  last_with r l = Some d -> round d = r /\ In d l.
Proof.
  induction l as [|x t IH]; simpl; [discriminate|].
  destruct (last_with r t) as [y|].
  - intros [= ->]. destruct (IH eq_refl). auto.
  - case_eq (Nat.eqb (round x) r); intros Hx [= ->].
    apply Nat.eqb_eq in Hx. auto.
Qed.

Lemma assoc_fold_set (r : nat) (l : list Draw) (m : list (nat * Draw)) :
  assoc_nat r (fold_left set_round l m)
  = match last_with r l with Some x => Some x | None => assoc_nat r m end.
Proof.
  revert m; induction l as [|d t IH]; intros m; simpl; [reflexivity|].
  rewrite IH. unfold set_round. rewrite assoc_map_set.
  destruct (last_with r t); [reflexivity|].
  rewrite Nat.eqb_sym. destruct (Nat.eqb (round d) r); reflexivity.
Qed.

Definition keyed (m : list (nat * Draw)) : Prop :=
  NoDup (map fst m) /\ Forall (fun e => round (snd e) = fst e) m.

Lemma map_set_keys {V} (k : nat) (v : V) (m : list (nat * V)) :
  map fst (map_set k v m) = if existsb (Nat.eqb k) (map fst m) then map fst m
                            else map fst m ++ [k].
Proof.
  induction m as [|[k' v'] t IH]; simpl; [reflexivity|].
  case_eq (Nat.eqb k k'); intros Hk; simpl.
  - apply Nat.eqb_eq in Hk; now subst.
  - rewrite IH. destruct (existsb (Nat.eqb k) (map fst t)); reflexivity.
Qed.

Lemma map_set_in {V} (k : nat) (v : V) (m : list (nat * V)) e :
  In e (map_set k v m) -> e = (k, v) \/ In e m.
Proof.
  induction m as [|[k' v'] t IH]; simpl.
  - intros [<-|[]]; auto.
  - destruct (Nat.eqb k k'); simpl.
    + intros [<-|H]; auto.
    + intros [<-|H]; auto. destruct (IH H); auto.
Qed.

Lemma keyed_set (m : list (nat * Draw)) (d : Draw) : keyed m -> keyed (set_round m d).
Proof.
  intros [Hn Hf]. unfold set_round. split.
  - rewrite map_set_keys. case_eq (existsb (Nat.eqb (round d)) (map fst m)); intros He.
    + exact Hn.
    + apply NoDup_app; [exact Hn|constructor; [intros []|constructor]|].
      intros x Hx [<-|[]]. apply Bool.not_true_iff_false in He. apply He.
      apply existsb_exists. exists (round d). split; [exact Hx|apply Nat.eqb_refl].
  - apply Forall_forall. intros e He. destruct (map_set_in _ _ _ _ He) as [->|Hin].
    + reflexivity.
    + exact (proj1 (Forall_forall _ _) Hf e Hin).
Qed.

Lemma keyed_fold (l : list Draw) (m : list (nat * Draw)) :
  keyed m -> keyed (fold_left set_round l m).
Proof.
  revert m; induction l as [|d t IH]; intros m Hm; simpl; [exact Hm|].
  apply IH. now apply keyed_set.
Qed.

Lemma keyed_assoc (m : list (nat * Draw)) (k : nat) (v : Draw) :
  NoDup (map fst m) -> In (k, v) m -> assoc_nat k m = Some v.
Proof.
  induction m as [|[k' v'] t IH]; simpl; [intros _ []|].
  intros Hn [[= <- <-]|Hin]; [now rewrite Nat.eqb_refl|].
  inversion Hn as [|? ? Hnin Hn']; subst.
  case_eq (Nat.eqb k k'); intros Hk.
  - apply Nat.eqb_eq in Hk; subst. exfalso. apply Hnin.
    change k' with (fst (k', v)). now apply in_map.
  - now apply IH.
Qed.

Lemma assoc_in {V} (k : nat) (m : list (nat * V)) (v : V) :
  assoc_nat k m = Some v -> In (k, v) m.
Proof.
  induction m as [|[k' v'] t IH]; simpl; [discriminate|].
  case_eq (Nat.eqb k k'); intros Hk.
  - apply Nat.eqb_eq in Hk; subst. intros [= <-]. now left.
  - intros H. right. now apply IH.
Qed.

Lemma merge_eq (P F : list Draw) :
  merge P F = sort_by by_round (map snd (fold_left set_round F (fold_left set_round P []))).
Proof. reflexivity. Qed.

Lemma by_round_flip (a b : Draw) : 0 < by_round b a -> by_round a b <= 0.
Proof. unfold by_round; lia. Qed.

Lemma by_round_trans (a b c : Draw) :
  by_round a b <= 0 -> by_round b c <= 0 -> by_round a c <= 0.
Proof. unfold by_round; lia. Qed.

(** ** C1: the repository merge *)

(** C1. Merging a persisted sequence [P] with a freshly extracted sequence [F]
    keys records by round: every round of [F] carries [F]'s record (the last
    one [F] lists for it), every round only in [P] keeps [P]'s record, nothing
    else is in the result, no round occurs twice, and the result is sorted by
    ascending round. *)
Theorem merge_by_round (P F : list Draw) :
  (forall r d, last_with r F = Some d -> In d (merge P F)) /\
  (forall r d, last_with r F = None -> last_with r P = Some d -> In d (merge P F)) /\
  (forall d, In d (merge P F) ->
     last_with (round d) F = Some d \/
     (last_with (round d) F = None /\ last_with (round d) P = Some d)) /\
  NoDup (map round (merge P F)) /\
  StronglySorted (fun a b => round a < round b)%nat (merge P F).
Proof.
  rewrite merge_eq.
  set (m := fold_left set_round F (fold_left set_round P [])).
  assert (Hk : keyed m) by (apply keyed_fold, keyed_fold; split; constructor).
  destruct Hk as [Hnd Hwk].
  assert (Hperm := sort_by_perm by_round (map snd m)).
  assert (Hlook : forall r, assoc_nat r m =
            match last_with r F with Some x => Some x | None => last_with r P end).
  { intros r. unfold m. rewrite assoc_fold_set, assoc_fold_set. simpl. destruct (last_with r F); [reflexivity|]. now destruct (last_with r P). }
  assert (Hin : forall r d, assoc_nat r m = Some d -> In d (sort_by by_round (map snd m))).
  { intros r d Ha. eapply Permutation_in; [exact Hperm|].
    change d with (snd (r, d)). apply in_map. now apply assoc_in. }
  assert (Hkeys : map round (map snd m) = map fst m).
  { rewrite map_map. apply map_ext_in. intros e He.
    exact (proj1 (Forall_forall _ _) Hwk e He). }
  assert (Hnd' : NoDup (map round (sort_by by_round (map snd m)))).
  { eapply Permutation_NoDup; [apply Permutation_map; exact Hperm|].
    now rewrite Hkeys. }
  split; [|split; [|split; [|split]]].
  - intros r d Hd. apply (Hin r). rewrite Hlook, Hd. reflexivity.
  - intros r d HF HP. apply (Hin r). rewrite Hlook, HF. exact HP.
  - intros d Hd. apply Permutation_sym in Hperm.
    apply (Permutation_in _ Hperm) in Hd. apply in_map_iff in Hd as [[k v] [Hv He]].
    simpl in Hv; subst v.
    assert (Hr : round d = k) by exact (proj1 (Forall_forall _ _) Hwk _ He).
    pose proof (keyed_assoc m k d Hnd He) as Ha. rewrite Hlook in Ha. rewrite Hr.
    destruct (last_with k F) as [x|]; [left; exact Ha|right; split; [reflexivity|exact Ha]].
  - exact Hnd'.
  - eapply strongly_sorted_strict with (R := cmp_le by_round) (f := round); [| |exact Hnd'].
    + intros a b Hab Hne. unfold cmp_le, by_round in Hab. cbv beta. lia.
    + apply sort_by_strongly_sorted; [exact by_round_flip|exact by_round_trans].
Qed.

(** ** C2: proximity association of bonus matches *)

(** Gap between the end of primary match [f] and the start of bonus [m]. *)
Definition gap (f : FirstMatch) (m : BonusMatch) : Z :=
  Z.of_nat (bm_index m) - Z.of_nat (f_index f + f_rawLen f).

Definition bonus_of (m : BonusMatch) : BonusPrize :=
  {| b_digits := bm_digits m; b_winners := bm_winners m |}.

(** The two-pointer scan as the spec describes it.  [scan bms b fs js]: with
    the cursor at [b], the primary matches [fs] are associated, in order,
    with the bonus indices [js] ([None]: no bonus).  For each primary match
    [f] the cursor moves to [c], past the bonus matches from [b] that start
    before [f] and stopping at the first one that does not (or at the end);
    bonus [c] is attached exactly when its gap is within [0, MAX_BONUS_GAP],
    and then the cursor moves past it. *)
Inductive scan (bms : list BonusMatch) : nat -> list FirstMatch -> list (option nat) -> Prop :=
| scan_nil b : scan bms b [] []
| scan_attach b c f fs js m :
    (b <= c)%nat ->
    (forall i, (b <= i < c)%nat -> exists m', nth_error bms i = Some m' /\ (bm_index m' < f_index f)%nat) ->
    nth_error bms c = Some m ->
    (f_index f <= bm_index m)%nat ->
    0 <= gap f m <= MAX_BONUS_GAP ->
    scan bms (S c) fs js ->
    scan bms b (f :: fs) (Some c :: js)
| scan_skip b c f fs js :
    (b <= c)%nat ->
    (forall i, (b <= i < c)%nat -> exists m', nth_error bms i = Some m' /\ (bm_index m' < f_index f)%nat) ->
    (forall m, nth_error bms c = Some m -> (f_index f <= bm_index m)%nat /\ ~ (0 <= gap f m <= MAX_BONUS_GAP)) ->
    scan bms c fs js ->
    scan bms b (f :: fs) (None :: js).

Definition attached (js : list (option nat)) : list nat :=
  flat_map (fun j => match j with Some i => [i] | None => [] end) js.

Definition with_bonus (bms : list BonusMatch) (f : FirstMatch) (j : option nat) : Draw :=
  mk_draw f (match j with
             | Some i => option_map bonus_of (nth_error bms i)
             | None => None
             end).

Lemma advance_spec (bms : list BonusMatch) (fi fuel b : nat) :
  (length bms <= b + fuel)%nat ->
  let c := advance bms b fi fuel in
  (b <= c)%nat /\
  (forall i, (b <= i < c)%nat -> exists m, nth_error bms i = Some m /\ (bm_index m < fi)%nat) /\
  (forall m, nth_error bms c = Some m -> (fi <= bm_index m)%nat).
Proof.
  revert b; induction fuel as [|n IH]; intros b Hl; simpl.
  - split; [lia|split; [intros; lia|]].
    intros m Hm. assert (nth_error bms b = None) by (apply nth_error_None; lia).
    congruence.
  - case_eq (nth_error bms b); [intros m Hm|intros Hm].
    + case_eq (bm_index m <? fi)%nat; intros Hlt.
      * apply Nat.ltb_lt in Hlt.
        destruct (IH (S b) ltac:(lia)) as [H1 [H2 H3]].
        split; [lia|split; [|exact H3]].
        intros i Hi. destruct (Nat.eq_dec i b) as [->|Hne].
        -- exists m; auto.
        -- apply H2; lia.
      * apply Nat.ltb_ge in Hlt.
        split; [lia|split; [intros; lia|]]. intros m' Hm'. congruence.
    + split; [lia|split; [intros; lia|]]. intros m' Hm'. congruence.
Qed.

Lemma assoc_from_scan (bms : list BonusMatch) (fs : list FirstMatch) (b : nat) :
  exists js, scan bms b fs js /\ length js = length fs /\
    assoc_from bms b fs = map (fun p => with_bonus bms (fst p) (snd p)) (combine fs js).
Proof.
  revert b; induction fs as [|f fs IH]; intros b.
  - exists []. split; [constructor|split; reflexivity].
  - simpl. unfold assoc_step.
    destruct (advance_spec bms (f_index f) (length bms) b ltac:(lia)) as [H1 [H2 H3]].
    set (c := advance bms b (f_index f) (length bms)) in *.
    case_eq (nth_error bms c); [intros m Hm|intros Hm].
    + case_eq ((0 <=? gap f m) && (gap f m <=? MAX_BONUS_GAP)); intros Hg.
      * unfold gap in Hg. rewrite Hg.
        destruct (IH (S c)) as [js [Hs [Hl He]]].
        exists (Some c :: js). split; [|split].
        -- apply andb_true_iff in Hg as [Hg1 Hg2].
           apply Z.leb_le in Hg1. apply Z.leb_le in Hg2.
           eapply scan_attach; eauto; split; assumption.
        -- simpl; now rewrite Hl.
        -- simpl. rewrite He. unfold with_bonus. simpl. rewrite Hm. reflexivity.
      * unfold gap in Hg. rewrite Hg.
        destruct (IH c) as [js [Hs [Hl He]]].
        exists (None :: js). split; [|split].
        -- apply scan_skip with (c := c); auto.
           intros m' Hm'. rewrite Hm in Hm'. injection Hm' as <-.
           split; [now apply H3|].
           intros [Hg1 Hg2]. apply Z.leb_le in Hg1. apply Z.leb_le in Hg2.
           unfold gap in Hg1, Hg2. rewrite Hg1, Hg2 in Hg. discriminate.
        -- simpl; now rewrite Hl.
        -- simpl. now rewrite He.
    + destruct (IH c) as [js [Hs [Hl He]]].
      exists (None :: js). split; [|split].
      * apply scan_skip with (c := c); auto. intros m' Hm'. congruence.
      * simpl; now rewrite Hl.
      * simpl. now rewrite He.
Qed.

Lemma scan_attached (bms : list BonusMatch) (b : nat) fs js :
  scan bms b fs js -> Forall (fun i => b <= i)%nat (attached js) /\ NoDup (attached js).
Proof.
  induction 1 as [b|b c f fs js m Hbc _ _ _ _ _ [IHf IHn]|b c f fs js Hbc _ _ _ [IHf IHn]];
    simpl.
  - split; constructor.
  - split.
    + constructor; [lia|]. eapply Forall_impl; [|exact IHf]. simpl; intros; lia.
    + constructor; [|exact IHn]. intros Hin.
      pose proof (proj1 (Forall_forall _ _) IHf c Hin) as Hc. cbv beta in Hc. lia.
  - split; [|exact IHn]. eapply Forall_impl; [|exact IHf]. simpl; intros; lia.
Qed.

(** C2. The extractor's association of bonus matches with primary matches is
    the two-pointer scan: the primary matches are visited in order, one
    record each; the cursor starts at 0 and moves forward past the bonus
    matches that start before the current primary match; the next bonus
    match is attached exactly when the gap from the end of the primary match
    to its start lies in [0, 200]; an attached bonus match is consumed, so no
    bonus match is attached to two records. *)
Theorem assoc_two_pointer (fs : list FirstMatch) (bms : list BonusMatch) :
  exists js,
    scan bms 0 fs js /\
    assoc_loop fs bms = map (fun p => with_bonus bms (fst p) (snd p)) (combine fs js) /\
    length js = length fs /\
    NoDup (attached js) /\
    MAX_BONUS_GAP = 200.
Proof.
  destruct (assoc_from_scan bms fs 0) as [js [Hs [Hl He]]].
  exists js. split; [exact Hs|split; [exact He|split; [exact Hl|split; [|reflexivity]]]].
  exact (proj2 (scan_attached bms 0 fs js Hs)).
Qed.

(** ** C3: the worked example of the spec *)

Definition draw_303 : Draw :=
  {| round := 303;
     date := Some (codes "2026-02-19");
     first := {| group := 4; digits := [6; 3; 9; 5; 6; 6]%nat; winners := 1 |};
     bonus := Some {| b_digits := [6; 1; 9; 1; 3; 6]%nat; b_winners := 10 |};
     source := PRIMARY_SOURCE_URL |}.

(** C3. On the text "303회 2026.02.19 1등 4 6 3 9 5 6 6 1 보너스 각조 6 1 9 1 3 6 10"
    the extractor yields exactly one record: round 303, date 2026-02-19,
    group 4, digits 6 3 9 5 6 6, 1 winner, bonus digits 6 1 9 1 3 6 with
    10 winners. *)
Theorem scenario_303 : extractDraws scenario_text = Ok [draw_303].
Proof. vm_compute. reflexivity. Qed.

(** ** C6: no recommendation without data *)

(** C6. When the frequency table reports zero rounds, [recommendFromFreq]
    throws the "no data" error and yields no tickets. *)
Theorem recommend_no_data (fr : Freq) (n : nat) (cycle : num) :
  r_count (rounds fr) = 0%nat -> recommendFromFreq fr n cycle = Throw NoData.
Proof. intros H. unfold recommendFromFreq. now rewrite H. Qed.

Lemma recommend_no_data_witness :
  exists fr, buildFreq [] [] = Ok fr /\ r_count (rounds fr) = 0%nat /\
             recommendFromFreq fr 5 (js_of_Z 0) = Throw NoData.
Proof.
  eexists. split; [reflexivity|]. split; [reflexivity|].
  apply recommend_no_data. reflexivity.
Defined.

(** ** C7: zero primary matches *)

(** C7. A text with no match of the primary pattern makes the extraction
    throw, and the update run of [main] then ends with that error and both
    files as they were. *)
Theorem no_primary_match_fails (text : jstr) :
  matchAll reFirst text = [] ->
  extractDraws text = Throw ParseFailed /\
  (forall args now fs, noUpdate args = false ->
     main args text now fs = (fs, Throw ParseFailed)).
Proof.
  intros H.
  assert (He : extractDraws text = Throw ParseFailed)
    by (unfold extractDraws; now rewrite H).
  split; [exact He|].
  intros args now fs Hu. unfold main. rewrite Hu. simpl. rewrite He. reflexivity.
Qed.

Lemma no_primary_match_fails_witness :
  matchAll reFirst (codes "no draws today") = [] /\
  main {| noUpdate := false; recommend := js_of_Z 1; cycle := js_of_Z 0 |} (codes "no draws today") []
       {| draws_file := Some [draw_303]; freq_file := None |}
  = ({| draws_file := Some [draw_303]; freq_file := None |}, Throw ParseFailed).
Proof.
  assert (H : matchAll reFirst (codes "no draws today") = []) by (vm_compute; reflexivity).
  split; [exact H|].
  apply (proj2 (no_primary_match_fails (codes "no draws today") H)). reflexivity.
Defined.

(** ** C8: a date that does not parse *)

Lemma nth_error_combine_l {A B} (l : list A) (l' : list B) (k : nat) (a : A) :
  length l' = length l -> nth_error l k = Some a ->
  exists b, nth_error (combine l l') k = Some (a, b).
Proof.
  revert l' k; induction l as [|x t IH]; intros l' k Hl Hk; [destruct k; discriminate|].
  destruct l' as [|y t']; [discriminate|].
  destruct k as [|k]; simpl in *.
  - injection Hk as <-. eauto.
  - apply IH; auto.
Qed.

(** C8. A primary match whose date token does not parse still gives its
    record, at its place in the scan, with [date = null] and the match's
    round, group, digits and winners; the extraction throws only when there
    is no primary match at all. *)
Theorem unparsed_date_kept (fs : list FirstMatch) (bms : list BonusMatch) (k : nat) (f : FirstMatch) :
  nth_error fs k = Some f ->
  ymdDotToIso (f_dateDot f) = None ->
  (exists d, nth_error (assoc_loop fs bms) k = Some d /\ date d = None /\
             round d = f_round f /\
             first d = {| group := f_group f; digits := f_digits f; winners := f_winners f |}) /\
  (forall text e, extractDraws text = Throw e -> matchAll reFirst text = []).
Proof.
  intros Hk Hd. split.
  - destruct (assoc_from_scan bms fs 0) as [js [_ [Hl He]]].
    destruct (nth_error_combine_l fs js k f Hl Hk) as [j Hj].
    unfold assoc_loop. rewrite He, nth_error_map, Hj. simpl.
    eexists; split; [reflexivity|]. unfold with_bonus, mk_draw; simpl.
    rewrite Hd. auto.
  - intros text e. unfold extractDraws.
    destruct (matchAll reFirst text); [reflexivity|discriminate].
Qed.

Definition fm_bad_date : FirstMatch :=
  {| f_index := 0; f_round := 7; f_dateDot := codes "2026/02/19"; f_group := 2;
     f_digits := [1; 2; 3; 4; 5; 6]%nat; f_winners := 1; f_rawLen := 30 |}.

Lemma unparsed_date_kept_witness :
  nth_error [fm_bad_date] 0 = Some fm_bad_date /\
  ymdDotToIso (f_dateDot fm_bad_date) = None /\
  exists d, nth_error (assoc_loop [fm_bad_date] []) 0 = Some d /\ date d = None /\
            round d = 7%nat /\
            first d = {| group := 2; digits := [1; 2; 3; 4; 5; 6]%nat; winners := 1 |}.
Proof.
  assert (H1 : nth_error [fm_bad_date] 0 = Some fm_bad_date) by reflexivity.
  assert (H2 : ymdDotToIso (f_dateDot fm_bad_date) = None) by (vm_compute; reflexivity).
  split; [exact H1|split; [exact H2|]].
  exact (proj1 (unparsed_date_kept [fm_bad_date] [] 0 fm_bad_date H1 H2)).
Defined.

(** ** C4: reproducibility of the recommendation *)

Definition with_updatedAt (ts : jstr) (fr : Freq) : Freq :=
  {| updatedAt := ts; freq_source := freq_source fr; rounds := rounds fr;
     group_stat := group_stat fr; positions := positions fr; overall := overall fr;
     bonus_positions := bonus_positions fr; bonus_overall := bonus_overall fr;
     last5Top := last5Top fr |}.

(** C4. [recommendFromFreq] is a function of the table, [n] and [cycle]
    alone: the only clock-dependent field of the table, [updatedAt], has no
    influence, so building the table from the same history at two different
    times and recommending from it gives the same ticket lists. *)
Theorem recommend_reproducible :
  (forall fr n cycle ts,
     recommendFromFreq (with_updatedAt ts fr) n cycle = recommendFromFreq fr n cycle) /\
  (forall now1 now2 draws n cycle,
     (fr <- buildFreq now1 draws ;; recommendFromFreq fr n cycle)
     = (fr <- buildFreq now2 draws ;; recommendFromFreq fr n cycle)).
Proof.
  split.
  - intros. reflexivity.
  - intros. unfold buildFreq. destruct (freq_fold acc0 draws); reflexivity.
Qed.

(** ** Count objects *)

(** The keys of a count object are strictly ascending. *)
Definition good (o : obj) : Prop := StronglySorted lt (map fst o).

Lemma assoc_obj_put (k k' v : nat) (o : obj) :
  assoc_nat k (obj_put k' v o) = if Nat.eqb k k' then Some v else assoc_nat k o.
Proof.
  induction o as [|[k0 v0] t IH]; simpl; [reflexivity|].
  case_eq (Nat.eqb k' k0); intros H0.
  - apply Nat.eqb_eq in H0; subst k0. simpl. destruct (Nat.eqb k k'); reflexivity.
  - case_eq (k' <? k0)%nat; intros H1; simpl.
    + reflexivity.
    + rewrite IH. case_eq (Nat.eqb k k0); intros H2; [|reflexivity].
      apply Nat.eqb_eq in H2; subst k0. rewrite Nat.eqb_sym, H0. reflexivity.
Qed.

Lemma get_inc (o : obj) (k k' : nat) :
  get (inc o k') k = if Nat.eqb k k' then S (get o k) else get o k.
Proof.
  unfold inc, get at 1. rewrite assoc_obj_put.
  case_eq (Nat.eqb k k'); intros H; [apply Nat.eqb_eq in H; now subst|reflexivity].
Qed.

Lemma keys_obj_put (k v : nat) (o : obj) (x : nat) :
  In x (map fst (obj_put k v o)) <-> x = k \/ In x (map fst o).
Proof.
  induction o as [|[k0 v0] t IH]; simpl.
  - firstorder congruence.
  - case_eq (Nat.eqb k k0); intros H0.
    + apply Nat.eqb_eq in H0; subst k0. simpl. firstorder congruence.
    + destruct (k <? k0)%nat; simpl; [firstorder congruence|]. rewrite IH. firstorder congruence.
Qed.

Lemma good_obj_put (k v : nat) (o : obj) : good o -> good (obj_put k v o).
Proof.
  unfold good. induction o as [|[k0 v0] t IH]; simpl; intros Hs.
  - repeat constructor.
  - apply StronglySorted_inv in Hs as [Ht Hf].
    case_eq (Nat.eqb k k0); intros H0.
    + apply Nat.eqb_eq in H0; subst k0. simpl. constructor; assumption.
    + case_eq (k <? k0)%nat; intros H1; simpl.
      * apply Nat.ltb_lt in H1. constructor; [constructor; assumption|].
        constructor; [exact H1|]. eapply Forall_impl; [|exact Hf]. simpl; intros; lia.
      * apply Nat.ltb_ge in H1. apply Nat.eqb_neq in H0.
        constructor; [now apply IH|].
        apply Forall_forall. intros x Hx. apply keys_obj_put in Hx as [->|Hx]; [lia|].
        exact (proj1 (Forall_forall _ _) Hf x Hx).
Qed.

Lemma keys_obj_put_in (k v : nat) (o : obj) :
  good o -> In k (map fst o) -> map fst (obj_put k v o) = map fst o.
Proof.
  unfold good. induction o as [|[k0 v0] t IH]; simpl; intros Hs Hin; [destruct Hin|].
  apply StronglySorted_inv in Hs as [Ht Hf].
  case_eq (Nat.eqb k k0); intros H0.
  - apply Nat.eqb_eq in H0; subst k0. reflexivity.
  - apply Nat.eqb_neq in H0. destruct Hin as [->|Hin]; [congruence|].
    pose proof (proj1 (Forall_forall _ _) Hf k Hin) as Hlt.
    replace (k <? k0)%nat with false by (symmetry; apply Nat.ltb_ge; lia).
    simpl. f_equal. now apply IH.
Qed.

Lemma good_inc (o : obj) (k : nat) : good o -> good (inc o k).
Proof. apply good_obj_put. Qed.

Lemma keys_inc (o : obj) (k x : nat) : In x (map fst o) -> In x (map fst (inc o k)).
Proof. intros H. apply keys_obj_put. now right. Qed.

Lemma nth_error_list_set {A} (l : list A) (i p : nat) (v : A) :
  nth_error (list_set l i v) p =
  if Nat.eqb p i then (if (i <? length l)%nat then Some v else None) else nth_error l p.
Proof.
  revert i p; induction l as [|x t IH]; intros i p.
  - destruct p, i; simpl; try reflexivity. destruct (Nat.eqb p i); reflexivity.
  - destruct i as [|i], p as [|p]; simpl; try reflexivity.
    rewrite IH. reflexivity.
Qed.

Lemma length_list_set {A} (l : list A) (i : nat) (v : A) : length (list_set l i v) = length l.
Proof.
  revert i; induction l as [|x t IH]; intros i; [destruct i; reflexivity|].
  destruct i; simpl; [reflexivity|now rewrite IH].
Qed.

(** [pos'] is [pos] with [P p k] added to key [k] of the [p]-th object. *)
Definition objs_rel (P : nat -> nat -> nat) (pos pos' : list obj) : Prop :=
  length pos' = length pos /\
  forall p o', nth_error pos' p = Some o' ->
    exists o, nth_error pos p = Some o /\
      (forall k, get o' k = (get o k + P p k)%nat) /\
      (good o -> good o') /\
      (forall x, In x (map fst o) -> In x (map fst o')).

Lemma objs_rel_refl (pos : list obj) : objs_rel (fun _ _ => 0%nat) pos pos.
Proof.
  split; [reflexivity|]. intros p o' H. exists o'. repeat split; auto; intros; lia.
Qed.

Lemma objs_rel_trans P Q (pos pos' pos'' : list obj) :
  objs_rel P pos pos' -> objs_rel Q pos' pos'' ->
  objs_rel (fun p k => P p k + Q p k)%nat pos pos''.
Proof.
  intros [Hl1 H1] [Hl2 H2]. split; [congruence|].
  intros p o'' Ho''. destruct (H2 p o'' Ho'') as [o' [Ho' [Hg' [Hgood' Hk']]]].
  destruct (H1 p o' Ho') as [o [Ho [Hg [Hgood Hk]]]].
  exists o. split; [exact Ho|]. split; [|split; auto].
  intros k. rewrite Hg', Hg. lia.
Qed.

Lemma objs_rel_ext P Q (pos pos' : list obj) :
  (forall p k, P p k = Q p k) -> objs_rel P pos pos' -> objs_rel Q pos pos'.
Proof.
  intros HPQ [Hl H]. split; [exact Hl|]. intros p o' Ho'.
  destruct (H p o' Ho') as [o [Ho [Hg Hr]]]. exists o. split; [exact Ho|].
  split; [|exact Hr]. intros k. now rewrite Hg, HPQ.
Qed.

(** One occurrence of digit [k] at position [p] of [ds], read from index [idx]. *)
Definition bump (ds : list nat) (idx p k : nat) : nat :=
  if (idx <=? p)%nat then
    match nth_error ds (p - idx) with
    | Some x => if Nat.eqb x k then 1 else 0
    | None => 0
    end
  else 0.

Lemma count_digits_rel (ds : list nat) (pos : list obj) (ov : obj) (idx : nat) pos' ov' :
  count_digits pos ov ds idx = Ok (pos', ov') -> objs_rel (bump ds idx) pos pos'.
Proof.
  revert pos ov idx; induction ds as [|x t IH]; intros pos ov idx; simpl.
  - intros [= <- <-]. eapply objs_rel_ext; [|apply objs_rel_refl].
    intros p k. unfold bump. destruct (idx <=? p)%nat; [|reflexivity].
    now destruct (p - idx)%nat.
  - case_eq (nth_error pos idx); [intros o0 Ho0|intros _ [=]].
    intros Hc. apply IH in Hc.
    assert (Hstep : objs_rel (fun p k => if Nat.eqb p idx then (if Nat.eqb x k then 1 else 0) else 0)%nat
                      pos (list_set pos idx (inc o0 x))).
    { split; [apply length_list_set|].
      intros p o' Hp. rewrite nth_error_list_set in Hp.
      case_eq (Nat.eqb p idx); intros Hpi; rewrite Hpi in Hp.
      - apply Nat.eqb_eq in Hpi; subst p.
        destruct (idx <? length pos)%nat; [|discriminate]. injection Hp as <-.
        exists o0. split; [exact Ho0|]. split; [|split; [apply good_inc|apply keys_inc]].
        intros k. rewrite get_inc. rewrite Nat.eqb_sym.
        destruct (Nat.eqb x k); lia.
      - exists o'. split; [exact Hp|]. repeat split; auto; intros; lia. }
    eapply objs_rel_ext; [|exact (objs_rel_trans _ _ _ _ _ Hstep Hc)].
    intros p k. cbv beta. unfold bump.
    case_eq (Nat.eqb p idx); intros Hpi.
    + apply Nat.eqb_eq in Hpi; subst p.
      replace (S idx <=? idx)%nat with false by (symmetry; apply Nat.leb_gt; lia).
      rewrite Nat.leb_refl, Nat.sub_diag. cbn.
      destruct (Nat.eqb x k); reflexivity.
    + apply Nat.eqb_neq in Hpi.
      case_eq (idx <=? p)%nat; intros Hle.
      * apply Nat.leb_le in Hle.
        replace (S idx <=? p)%nat with true by (symmetry; apply Nat.leb_le; lia).
        replace (p - idx)%nat with (S (p - S idx)) by lia. reflexivity.
      * apply Nat.leb_gt in Hle.
        replace (S idx <=? p)%nat with false by (symmetry; apply Nat.leb_gt; lia).
        reflexivity.
Qed.

(** ** Counting the history *)

Definition digit_at (ds : list nat) (p k : nat) : bool :=
  match nth_error ds p with Some x => Nat.eqb x k | None => false end.

(** Number of records of [ds] with group [k]. *)
Definition count_group (k : nat) (ds : list Draw) : nat :=
  length (filter (fun d => Nat.eqb (group (first d)) k) ds).

(** Number of records of [ds] with digit [k] at position [p]. *)
Definition count_pos (p k : nat) (ds : list Draw) : nat :=
  length (filter (fun d => digit_at (digits (first d)) p k) ds).

(** Number of records of [ds] with a bonus whose digit at [p] is [k]. *)
Definition count_bonus_pos (p k : nat) (ds : list Draw) : nat :=
  length (filter (fun d => match bonus d with
                           | Some b => digit_at (b_digits b) p k
                           | None => false
                           end) ds).

Lemma bump_0 (ds : list nat) (p k : nat) : bump ds 0 p k = if digit_at ds p k then 1%nat else 0%nat.
Proof.
  unfold bump, digit_at. simpl. rewrite Nat.sub_0_r.
  destruct (nth_error ds p); reflexivity.
Qed.

Definition group_rel (P : nat -> nat) (g g' : obj) : Prop :=
  (forall k, get g' k = (get g k + P k)%nat) /\ (good g -> good g') /\
  (forall x, In x (map fst g) -> In x (map fst g')).

Lemma freq_step_rel (a : Acc) (d : Draw) (a' : Acc) :
  freq_step a d = Ok a' ->
  group_rel (fun k => if Nat.eqb (group (first d)) k then 1%nat else 0%nat) (a_group a) (a_group a') /\
  objs_rel (fun p k => if digit_at (digits (first d)) p k then 1%nat else 0%nat) (a_pos a) (a_pos a') /\
  objs_rel (fun p k => match bonus d with
                       | Some b => if digit_at (b_digits b) p k then 1%nat else 0%nat
                       | None => 0%nat
                       end) (a_bpos a) (a_bpos a').
Proof.
  unfold freq_step.
  destruct (count_digits (a_pos a) (a_overall a) (digits (first d)) 0) as [[pc oc]|e] eqn:Hc;
    [|discriminate].
  simpl. apply count_digits_rel in Hc.
  assert (Hg : group_rel (fun k => if Nat.eqb (group (first d)) k then 1%nat else 0%nat)
                 (a_group a) (inc (a_group a) (group (first d)))).
  { split; [|split; [apply good_inc|apply keys_inc]].
    intros k. rewrite get_inc.
    destruct (Nat.eqb_spec k (group (first d))) as [->|Hne]; [rewrite Nat.eqb_refl; lia|].
    replace (Nat.eqb (group (first d)) k) with false by (symmetry; apply Nat.eqb_neq; congruence).
    lia. }
  assert (Hp : objs_rel (fun p k => if digit_at (digits (first d)) p k then 1%nat else 0%nat)
                 (a_pos a) pc).
  { eapply objs_rel_ext; [|exact Hc]. intros p k. apply bump_0. }
  destruct (bonus d) as [b|].
  - destruct (count_digits (a_bpos a) (a_boverall a) (b_digits b) 0) as [[bc boc]|e] eqn:Hb;
      [|discriminate].
    simpl. intros [= <-]. simpl. split; [exact Hg|split; [exact Hp|]].
    apply count_digits_rel in Hb. eapply objs_rel_ext; [|exact Hb]. intros p k. apply bump_0.
  - intros [= <-]. simpl. split; [exact Hg|split; [exact Hp|]]. apply objs_rel_refl.
Qed.

Lemma freq_fold_rel (a : Acc) (ds : list Draw) (a' : Acc) :
  freq_fold a ds = Ok a' ->
  group_rel (fun k => count_group k ds) (a_group a) (a_group a') /\
  objs_rel (fun p k => count_pos p k ds) (a_pos a) (a_pos a') /\
  objs_rel (fun p k => count_bonus_pos p k ds) (a_bpos a) (a_bpos a').
Proof.
  revert a; induction ds as [|d t IH]; intros a; simpl.
  - intros [= <-]. split; [|split; apply objs_rel_refl].
    split; [intros k; unfold count_group; simpl; lia|split; auto].
  - destruct (freq_step a d) as [a1|e] eqn:Hs; [|discriminate]. simpl. intros Hf.
    destruct (freq_step_rel a d a1 Hs) as [[Hg1 [Hg2 Hg3]] [Hp Hb]].
    destruct (IH a1 Hf) as [[Hg1' [Hg2' Hg3']] [Hp' Hb']].
    split; [|split].
    + split; [|split; auto]. intros k. rewrite Hg1', Hg1.
      unfold count_group. simpl. destruct (Nat.eqb (group (first d)) k); simpl; lia.
    + eapply objs_rel_ext; [|exact (objs_rel_trans _ _ _ _ _ Hp Hp')].
      intros p k. unfold count_pos. simpl. destruct (digit_at (digits (first d)) p k); reflexivity.
    + eapply objs_rel_ext; [|exact (objs_rel_trans _ _ _ _ _ Hb Hb')].
      intros p k. unfold count_bonus_pos. simpl.
      destruct (bonus d) as [b|]; [|reflexivity].
      destruct (digit_at (b_digits b) p k); reflexivity.
Qed.

(** ** Completeness of the ranked lists *)

Lemma good_NoDup (o : obj) : good o -> NoDup (map fst o).
Proof.
  unfold good. induction 1 as [|a t Ht IH Hf]; constructor; [|exact IH].
  intros Hin. rewrite Forall_forall in Hf. specialize (Hf a Hin). lia.
Qed.

Lemma rankCounts_keys (o : obj) : map fst (rankCounts o) = sort_by (rank_cmp o) (map fst o).
Proof. unfold rankCounts. rewrite map_map. simpl. apply map_id. Qed.

Lemma rankCounts_complete (o : obj) (k : nat) :
  good o -> In k (map fst o) ->
  count_occ Nat.eq_dec (map fst (rankCounts o)) k = 1%nat /\ In (k, get o k) (rankCounts o).
Proof.
  intros Hg Hk.
  pose proof (sort_by_perm (rank_cmp o) (map fst o)) as Hp.
  split.
  - rewrite rankCounts_keys.
    rewrite <- (proj1 (Permutation_count_occ Nat.eq_dec _ _) Hp).
    apply (proj1 (NoDup_count_occ' Nat.eq_dec _) (good_NoDup o Hg)). exact Hk.
  - unfold rankCounts. apply (in_map (fun k => (k, get o k))).
    eapply Permutation_in; [exact Hp|exact Hk].
Qed.

Lemma seq_sorted (a n : nat) : StronglySorted lt (seq a n).
Proof.
  revert a; induction n as [|n IH]; intros a; simpl; constructor; [apply IH|].
  apply Forall_forall. intros x Hx. apply in_seq in Hx. lia.
Qed.

Lemma keys_zeros (l : list nat) : map fst (map (fun d => (d, 0%nat)) l) = l.
Proof. rewrite map_map. apply map_id. Qed.

Lemma get_zeros (l : list nat) (k : nat) : get (map (fun d => (d, 0%nat)) l) k = 0%nat.
Proof.
  unfold get. induction l as [|x t IH]; simpl; [reflexivity|].
  destruct (Nat.eqb k x); [reflexivity|exact IH].
Qed.

Lemma good_digits0 : good makeEmptyDigitCounts.
Proof. unfold good, makeEmptyDigitCounts. rewrite keys_zeros. apply seq_sorted. Qed.

Lemma good_groups0 : good makeEmptyGroupCounts.
Proof. unfold good, makeEmptyGroupCounts. rewrite keys_zeros. apply seq_sorted. Qed.

Lemma keys_digits0 (k : nat) : (k <= 9)%nat -> In k (map fst makeEmptyDigitCounts).
Proof. intros Hk. unfold makeEmptyDigitCounts. rewrite keys_zeros. apply in_seq. lia. Qed.

Lemma keys_groups0 (g : nat) : (1 <= g <= 5)%nat -> In g (map fst makeEmptyGroupCounts).
Proof. intros Hg. unfold makeEmptyGroupCounts. rewrite keys_zeros. apply in_seq. lia. Qed.

Lemma nth_error_combine_fst {A B} (l : list A) (l' : list B) (p : nat) (a : A) (b : B) :
  nth_error (combine l l') p = Some (a, b) -> nth_error l p = Some a.
Proof.
  revert l' p; induction l as [|x t IH]; intros l' p; [destruct p; discriminate|].
  destruct l' as [|y t']; [destruct p; discriminate|].
  destruct p as [|p]; simpl; [congruence|apply IH].
Qed.

Lemma pos_stats_nth (l : list obj) (p : nat) (ps : PosStat) :
  nth_error (pos_stats l) p = Some ps ->
  exists o, nth_error l p = Some o /\ ps_ranked ps = rankCounts o.
Proof.
  unfold pos_stats. rewrite nth_error_map.
  destruct (nth_error (combine l POS_NAMES) p) as [[o nm]|] eqn:He; simpl; [|discriminate].
  intros [= <-]. exists o. split; [eapply nth_error_combine_fst; exact He|reflexivity].
Qed.

Lemma length_pos_stats (l : list obj) : length l = 6%nat -> length (pos_stats l) = 6%nat.
Proof. intros H. unfold pos_stats. rewrite length_map, length_combine, H. reflexivity. Qed.

(** Six positions, each ranked list holding every digit once with count [P p k]. *)
Definition pos_complete (P : nat -> nat -> nat) (l : list PosStat) : Prop :=
  length l = 6%nat /\
  forall p ps, nth_error l p = Some ps -> forall k, (k <= 9)%nat ->
    count_occ Nat.eq_dec (map fst (ps_ranked ps)) k = 1%nat /\ In (k, P p k) (ps_ranked ps).

Lemma objs_complete P (pos : list obj) :
  objs_rel P (repeat makeEmptyDigitCounts 6) pos -> pos_complete P (pos_stats pos).
Proof.
  intros [Hl Hr]. split; [apply length_pos_stats; rewrite Hl; reflexivity|].
  intros p ps Hps k Hk.
  destruct (pos_stats_nth _ _ _ Hps) as [o' [Ho' ->]].
  destruct (Hr p o' Ho') as [o [Ho [Hget [Hgood Hkeys]]]].
  apply nth_error_In, repeat_spec in Ho. subst o.
  replace (P p k) with (get o' k)
    by (rewrite Hget; unfold makeEmptyDigitCounts; rewrite get_zeros; reflexivity).
  apply rankCounts_complete; [apply Hgood, good_digits0|apply Hkeys, keys_digits0; exact Hk].
Qed.

(** What the frequency table of [draws] holds: each group 1..5 once in the
    group ranking, each digit 0..9 once in every primary and bonus position,
    each with its count in [draws] (zero when never seen). *)
Definition freq_complete (draws : list Draw) (fr : Freq) : Prop :=
  (forall g, (1 <= g <= 5)%nat ->
     count_occ Nat.eq_dec (map fst (cs_ranked (group_stat fr))) g = 1%nat /\
     In (g, count_group g draws) (cs_ranked (group_stat fr))) /\
  pos_complete (fun p k => count_pos p k draws) (positions fr) /\
  pos_complete (fun p k => count_bonus_pos p k draws) (bonus_positions fr).

Lemma buildFreq_complete (now : jstr) (draws : list Draw) (fr : Freq) :
  buildFreq now draws = Ok fr -> freq_complete draws fr.
Proof.
  unfold buildFreq. destruct (freq_fold acc0 draws) as [a|e] eqn:Hf; [|discriminate].
  simpl. intros [= <-].
  destruct (freq_fold_rel _ _ _ Hf) as [[Hg1 [Hg2 Hg3]] [Hp Hb]]. simpl in *.
  split; [|split; simpl; apply objs_complete; assumption].
  intros g Hg. simpl.
  replace (count_group g draws) with (get (a_group a) g)
    by (rewrite Hg1; unfold makeEmptyGroupCounts; rewrite get_zeros; reflexivity).
  apply rankCounts_complete; [apply Hg2, good_groups0|apply Hg3, keys_groups0; exact Hg].
Qed.

(** C9: for every history [buildFreq] accepts (the empty one included), the
    ranked list of the five groups and those of the ten digits of each of
    the six primary and six bonus positions contain every key exactly once;
    a key never observed is there with count zero. *)
Theorem freq_tables_complete (now : jstr) (draws : list Draw) (fr : Freq) :
  buildFreq now draws = Ok fr -> freq_complete draws fr.
Proof. apply buildFreq_complete. Qed.

Lemma freq_tables_complete_witness :
  exists fr, buildFreq [] [draw_303] = Ok fr /\ freq_complete [draw_303] fr.
Proof.
  eexists. split; [reflexivity|].
  apply (freq_tables_complete [] [draw_303]). reflexivity.
Defined.

(** ** Order of the rankings *)

(** [rankCounts]'s order: more occurrences first, equal counts by ascending key. *)
Definition rank_before (x y : nat * nat) : Prop :=
  (snd y < snd x \/ (snd x = snd y /\ fst x < fst y))%nat.

Lemma rank_cmp_le (o : obj) (a b : nat) :
  rank_cmp o a b <= 0 <-> (get o b < get o a \/ (get o a = get o b /\ a <= b))%nat.
Proof.
  unfold rank_cmp. cbv zeta.
  destruct (Z.eqb_spec (Z.of_nat (get o b)) (Z.of_nat (get o a))); simpl; lia.
Qed.

Lemma rank_cmp_flip (o : obj) (a b : nat) : 0 < rank_cmp o b a -> rank_cmp o a b <= 0.
Proof.
  intros H. apply rank_cmp_le.
  assert (Hn : ~ (rank_cmp o b a <= 0)) by lia. rewrite rank_cmp_le in Hn. lia.
Qed.

Lemma rank_cmp_trans (o : obj) (a b c : nat) :
  rank_cmp o a b <= 0 -> rank_cmp o b c <= 0 -> rank_cmp o a c <= 0.
Proof. rewrite !rank_cmp_le. lia. Qed.

Lemma StronglySorted_map {A B} (R : B -> B -> Prop) (f : A -> B) (l : list A) :
  StronglySorted (fun a b => R (f a) (f b)) l -> StronglySorted R (map f l).
Proof.
  induction 1 as [|a t Ht IH Hf]; simpl; constructor; [exact IH|].
  apply Forall_map. exact Hf.
Qed.

Lemma rankCounts_sorted (o : obj) : good o -> StronglySorted rank_before (rankCounts o).
Proof.
  intros Hg. unfold rankCounts. apply StronglySorted_map.
  apply (strongly_sorted_strict (cmp_le (rank_cmp o)) _ (fun k => k)).
  - intros a b Hab Hne. unfold cmp_le in Hab. rewrite rank_cmp_le in Hab.
    unfold rank_before; simpl. lia.
  - apply sort_by_strongly_sorted; [apply rank_cmp_flip|apply rank_cmp_trans].
  - rewrite map_id. eapply Permutation_NoDup; [apply sort_by_perm|].
    apply good_NoDup, Hg.
Qed.

(** The suffixes of a history, in draw order. *)
Definition suffix_keys (ds : list Draw) : list jstr :=
  map (fun d => last5_of (digits (first d))) ds.

(** The distinct suffixes in the order of their first appearance. *)
Definition first_seen (ks : list jstr) : list jstr :=
  fold_left (fun acc k => if existsb (jstr_eqb k) acc then acc else acc ++ [k]) ks [].

Definition count_key (k : jstr) (ks : list jstr) : nat := length (filter (jstr_eqb k) ks).

(** Each distinct suffix, in first-appearance order, with its number of draws. *)
Definition suffix_tally (ks : list jstr) : list (jstr * nat) :=
  map (fun k => (k, count_key k ks)) (first_seen ks).

Lemma jstr_eqb_eq (a b : jstr) : jstr_eqb a b = true <-> a = b.
Proof.
  revert b; induction a as [|x a IH]; intros [|y b]; simpl; try (split; congruence).
  rewrite andb_true_iff, Z.eqb_eq, IH. split; [intros [-> ->]; reflexivity|intros H; injection H; auto].
Qed.

Lemma jstr_eqb_sym (a b : jstr) : jstr_eqb a b = jstr_eqb b a.
Proof.
  apply eq_true_iff_eq. rewrite !jstr_eqb_eq. split; intros ->; reflexivity.
Qed.

Lemma existsb_jstr (k : jstr) (l : list jstr) : existsb (jstr_eqb k) l = true <-> In k l.
Proof.
  rewrite existsb_exists. split.
  - intros [x [Hx He]]. apply jstr_eqb_eq in He. subst. exact Hx.
  - intros Hk. exists k. split; [exact Hk|]. apply jstr_eqb_eq. reflexivity.
Qed.

Lemma first_seen_acc (ks acc : list jstr) :
  NoDup acc ->
  NoDup (fold_left (fun acc k => if existsb (jstr_eqb k) acc then acc else acc ++ [k]) ks acc) /\
  (forall x, In x (fold_left (fun acc k => if existsb (jstr_eqb k) acc then acc else acc ++ [k]) ks acc)
             <-> In x acc \/ In x ks).
Proof.
  revert acc; induction ks as [|k t IH]; intros acc Hn; simpl.
  - split; [exact Hn|]. intros x. tauto.
  - case_eq (existsb (jstr_eqb k) acc); intros He.
    + apply existsb_jstr in He. destruct (IH acc Hn) as [H1 H2]. split; [exact H1|].
      intros x. rewrite H2. split; [tauto|]. intros [H|[<-|H]]; auto.
    + assert (Hk : ~ In k acc) by (rewrite <- existsb_jstr; congruence).
      assert (Hn' : NoDup (acc ++ [k])).
      { eapply Permutation_NoDup; [apply Permutation_cons_append|]. constructor; assumption. }
      destruct (IH _ Hn') as [H1 H2]. split; [exact H1|].
      intros x. rewrite H2, in_app_iff. simpl. tauto.
Qed.

Lemma first_seen_NoDup (ks : list jstr) : NoDup (first_seen ks).
Proof. apply first_seen_acc. constructor. Qed.

Lemma first_seen_In (ks : list jstr) (x : jstr) : In x (first_seen ks) <-> In x ks.
Proof.
  unfold first_seen. rewrite (proj2 (first_seen_acc ks [] (NoDup_nil _))). simpl. tauto.
Qed.

Lemma first_seen_snoc (ks : list jstr) (k : jstr) :
  first_seen (ks ++ [k]) =
  if existsb (jstr_eqb k) (first_seen ks) then first_seen ks else first_seen ks ++ [k].
Proof. unfold first_seen. rewrite fold_left_app. reflexivity. Qed.

Lemma count_key_snoc (x : jstr) (ks : list jstr) (k : jstr) :
  count_key x (ks ++ [k]) = (count_key x ks + if jstr_eqb x k then 1 else 0)%nat.
Proof.
  unfold count_key. rewrite filter_app, length_app. simpl.
  destruct (jstr_eqb x k); reflexivity.
Qed.

Lemma count_key_notin (k : jstr) (ks : list jstr) : ~ In k ks -> count_key k ks = 0%nat.
Proof.
  intros Hk. unfold count_key.
  destruct (filter (jstr_eqb k) ks) as [|y t] eqn:Hf; [reflexivity|].
  exfalso. assert (Hy : In y (filter (jstr_eqb k) ks)) by (rewrite Hf; left; reflexivity).
  apply filter_In in Hy as [Hy He]. apply jstr_eqb_eq in He. subst. contradiction.
Qed.

Lemma smap_get_map {V} (k : jstr) (f : jstr -> V) (l : list jstr) :
  smap_get k (map (fun x => (x, f x)) l)
  = if existsb (jstr_eqb k) l then Some (f k) else None.
Proof.
  induction l as [|x t IH]; simpl; [reflexivity|].
  case_eq (jstr_eqb k x); intros He; simpl; [|exact IH].
  apply jstr_eqb_eq in He. subst. reflexivity.
Qed.

Lemma smap_set_map {V} (k : jstr) (v : V) (f : jstr -> V) (l : list jstr) :
  NoDup l ->
  smap_set k v (map (fun x => (x, f x)) l)
  = if existsb (jstr_eqb k) l
    then map (fun x => (x, if jstr_eqb k x then v else f x)) l
    else map (fun x => (x, f x)) l ++ [(k, v)].
Proof.
  induction l as [|x t IH]; intros Hn; simpl; [reflexivity|].
  inversion Hn as [|? ? Hx Ht]; subst.
  case_eq (jstr_eqb k x); intros He; simpl.
  - apply jstr_eqb_eq in He. subst. f_equal.
    apply map_ext_in. intros y Hy.
    replace (jstr_eqb x y) with false; [reflexivity|].
    symmetry. apply not_true_iff_false. rewrite jstr_eqb_eq. intros ->. contradiction.
  - rewrite (IH Ht). destruct (existsb (jstr_eqb k) t); reflexivity.
Qed.

(** One [last5Map.set(last5, (last5Map.get(last5) ?? 0) + 1)] on the tally. *)
Lemma tally_snoc (ks : list jstr) (k : jstr) :
  smap_set k (match smap_get k (suffix_tally ks) with Some c => S c | None => 1%nat end)
    (suffix_tally ks) = suffix_tally (ks ++ [k]).
Proof.
  unfold suffix_tally. rewrite smap_get_map, first_seen_snoc.
  rewrite (smap_set_map _ _ _ _ (first_seen_NoDup ks)).
  case_eq (existsb (jstr_eqb k) (first_seen ks)); intros He.
  - apply map_ext. intros x. rewrite count_key_snoc, (jstr_eqb_sym x k).
    case_eq (jstr_eqb k x); intros Hx; [|f_equal; lia].
    apply jstr_eqb_eq in Hx. subst. f_equal. lia.
  - rewrite map_app. simpl. f_equal.
    + apply map_ext_in. intros x Hx. rewrite count_key_snoc, (jstr_eqb_sym x k).
      replace (jstr_eqb k x) with false; [f_equal; lia|].
      symmetry. apply not_true_iff_false. rewrite jstr_eqb_eq. intros ->.
      assert (Hin : existsb (jstr_eqb x) (first_seen ks) = true) by (apply existsb_jstr; exact Hx).
      congruence.
    + rewrite count_key_snoc, count_key_notin.
      * replace (jstr_eqb k k) with true by (symmetry; apply jstr_eqb_eq; reflexivity). reflexivity.
      * rewrite <- first_seen_In, <- existsb_jstr. congruence.
Qed.

Lemma freq_step_last5 (a : Acc) (d : Draw) (a' : Acc) (ks : list jstr) :
  freq_step a d = Ok a' -> a_last5 a = suffix_tally ks ->
  a_last5 a' = suffix_tally (ks ++ [last5_of (digits (first d))]).
Proof.
  unfold freq_step.
  destruct (count_digits (a_pos a) (a_overall a) (digits (first d)) 0) as [pc|e];
    [|discriminate].
  simpl. intros Hs Hl. rewrite <- tally_snoc, <- Hl.
  destruct (bonus d) as [b|].
  - destruct (count_digits (a_bpos a) (a_boverall a) (b_digits b) 0) as [bc|e];
      [|discriminate].
    simpl in Hs. injection Hs as <-. reflexivity.
  - injection Hs as <-. reflexivity.
Qed.

Lemma freq_fold_last5 (ds : list Draw) (a a' : Acc) (ks : list jstr) :
  freq_fold a ds = Ok a' -> a_last5 a = suffix_tally ks ->
  a_last5 a' = suffix_tally (ks ++ suffix_keys ds).
Proof.
  revert a ks; induction ds as [|d t IH]; intros a ks; simpl.
  - intros [= <-] Hl. now rewrite app_nil_r.
  - destruct (freq_step a d) as [a1|e] eqn:Hs; [|discriminate]. simpl. intros Hf Hl.
    rewrite (IH a1 (ks ++ [last5_of (digits (first d))]) Hf).
    + now rewrite <- app_assoc.
    + eapply freq_step_last5; eassumption.
Qed.

Lemma StronglySorted_firstn {A} (R R' : A -> A -> Prop) (n : nat) (l : list A) :
  (forall x y, R x y -> R' x y) -> StronglySorted R l -> StronglySorted R' (firstn n l).
Proof.
  intros HR Hs. revert n. induction Hs as [|a t Ht IH Hf]; intros n;
    [destruct n; constructor|].
  destruct n as [|n]; simpl; constructor; [apply IH|].
  apply Forall_forall. intros y Hy. apply HR.
  apply (proj1 (Forall_forall _ _) Hf).
  rewrite <- (firstn_skipn n t). apply in_or_app. left. exact Hy.
Qed.

Lemma with_key_firstn {A} (key : A -> nat) (c n : nat) (l : list A) :
  exists rest, with_key key c l = with_key key c (firstn n l) ++ rest.
Proof.
  exists (with_key key c (skipn n l)). unfold with_key.
  rewrite <- filter_app, firstn_skipn. reflexivity.
Qed.

Lemma pos_stats_sorted (P : nat -> nat -> nat) (pos : list obj) (ps : PosStat) :
  objs_rel P (repeat makeEmptyDigitCounts 6) pos -> In ps (pos_stats pos) ->
  StronglySorted rank_before (ps_ranked ps).
Proof.
  intros [_ Hr] Hin. apply In_nth_error in Hin as [p Hp].
  destruct (pos_stats_nth _ _ _ Hp) as [o' [Ho' ->]].
  destruct (Hr p o' Ho') as [o [Ho [_ [Hgood _]]]].
  apply nth_error_In, repeat_spec in Ho. subst o.
  apply rankCounts_sorted, Hgood, good_digits0.
Qed.

(** A one-draw record with the given round and digits, group 1, no bonus. *)
Definition draw_digits (r : nat) (ds : list nat) : Draw :=
  {| round := r; date := None;
     first := {| group := 1; digits := ds; winners := 0 |};
     bonus := None; source := PRIMARY_SOURCE_URL |}.

(** Two draws whose suffixes "99999" and "00000" occur once each. *)
Definition tie_draws : list Draw :=
  [draw_digits 1 [0; 9; 9; 9; 9; 9]%nat; draw_digits 2 [0; 0; 0; 0; 0; 0]%nat].

(** C10 (counterexample): in [last5Top] the suffixes "99999" and "00000"
    tie at one occurrence, yet "99999" comes first: the ties of the suffix
    ranking are not broken by ascending key. *)
Theorem last5_tie_not_by_key :
  exists fr, buildFreq [] tie_draws = Ok fr /\
    last5Top fr = [(codes "99999", 1%nat); (codes "00000", 1%nat)].
Proof. eexists. split; reflexivity. Qed.

(** C10 (amended): the group ranking and the ranking of every primary and
    bonus position put higher counts first and break ties by ascending key;
    [last5Top] puts higher counts first, and the suffixes of one count keep
    the order of their first appearance in the history: for each count,
    those in [last5Top] are a prefix of all the suffixes with that count,
    in first-appearance order.  Each list is a function of the history. *)
Theorem rankings_order (now : jstr) (draws : list Draw) (fr : Freq) :
  buildFreq now draws = Ok fr ->
  StronglySorted rank_before (cs_ranked (group_stat fr)) /\
  (forall ps, In ps (positions fr) -> StronglySorted rank_before (ps_ranked ps)) /\
  (forall ps, In ps (bonus_positions fr) -> StronglySorted rank_before (ps_ranked ps)) /\
  StronglySorted (fun x y => snd y <= snd x)%nat (last5Top fr) /\
  (forall c, exists rest,
     with_key snd c (suffix_tally (suffix_keys draws)) = with_key snd c (last5Top fr) ++ rest).
Proof.
  unfold buildFreq. destruct (freq_fold acc0 draws) as [a|e] eqn:Hf; [|discriminate].
  simpl. intros [= <-]. simpl.
  destruct (freq_fold_rel _ _ _ Hf) as [[_ [Hg2 _]] [Hp Hb]]. simpl in *.
  pose proof (freq_fold_last5 draws acc0 a [] Hf eq_refl) as Hl. simpl in Hl.
  split; [apply rankCounts_sorted, Hg2, good_groups0|].
  split; [intros ps; apply (pos_stats_sorted _ _ _ Hp)|].
  split; [intros ps; apply (pos_stats_sorted _ _ _ Hb)|].
  unfold top_last5. split.
  - apply (StronglySorted_firstn (cmp_le last5_cmp)).
    + unfold cmp_le, last5_cmp. intros x y H. lia.
    + apply sort_by_strongly_sorted; unfold last5_cmp; intros; lia.
  - intros c. rewrite <- Hl.
    rewrite <- (sort_desc_with_key snd (a_last5 a) c).
    apply with_key_firstn.
Qed.

Lemma rankings_order_witness :
  exists fr, buildFreq [] tie_draws = Ok fr /\
    StronglySorted rank_before (cs_ranked (group_stat fr)) /\
    StronglySorted (fun x y => snd y <= snd x)%nat (last5Top fr).
Proof.
  eexists. split; [reflexivity|].
  destruct (rankings_order [] tie_draws _ eq_refl) as [H1 [_ [_ [H4 _]]]].
  split; [exact H1|exact H4].
Defined.

(** ** The tickets of the recommender *)

(** A record as the page publishes it: group 1..5, six digits and six bonus
    digits, each 0..9. *)
Definition well_formed (d : Draw) : Prop :=
  (1 <= group (first d) <= 5)%nat /\ length (digits (first d)) = 6%nat /\
  Forall (fun x => x <= 9)%nat (digits (first d)) /\
  match bonus d with
  | Some b => length (b_digits b) = 6%nat /\ Forall (fun x => x <= 9)%nat (b_digits b)
  | None => True
  end.

Definition keys_within (lo hi : nat) (o : obj) : Prop :=
  forall x, In x (map fst o) -> (lo <= x <= hi)%nat.

(** A ticket with a group 1..5 and six digits 0..9. *)
Definition ticket_ok (t : Ticket) : Prop :=
  (exists g, t_group t = Some g /\ (1 <= g <= 5)%nat) /\ length (t_digits t) = 6%nat /\
  Forall (fun d => exists k, d = Some k /\ (k <= 9)%nat) (t_digits t).

Lemma keys_within_inc (lo hi : nat) (o : obj) (k : nat) :
  keys_within lo hi o -> (lo <= k <= hi)%nat -> keys_within lo hi (inc o k).
Proof.
  intros Ho Hk x Hx. unfold inc in Hx. apply keys_obj_put in Hx as [->|Hx]; auto.
Qed.

Lemma Forall_list_set {A} (P : A -> Prop) (l : list A) (i : nat) (v : A) :
  Forall P l -> P v -> Forall P (list_set l i v).
Proof.
  intros Hl Hv. revert i; induction Hl as [|x t Hx Ht IH]; intros i; [destruct i; constructor|].
  destruct i; simpl; constructor; auto.
Qed.

Lemma count_digits_ok (ds : list nat) (pos : list obj) (ov : obj) (idx : nat) :
  (idx + length ds <= length pos)%nat ->
  Forall (keys_within 0 9) pos -> Forall (fun x => x <= 9)%nat ds ->
  exists pos' ov', count_digits pos ov ds idx = Ok (pos', ov') /\
    length pos' = length pos /\ Forall (keys_within 0 9) pos'.
Proof.
  revert pos ov idx; induction ds as [|x t IH]; intros pos ov idx Hl Hk Hd; simpl.
  - exists pos, ov. auto.
  - simpl in Hl. inversion Hd as [|? ? Hx Ht]; subst.
    destruct (nth_error pos idx) as [o|] eqn:Ho;
      [|apply nth_error_None in Ho; lia].
    destruct (IH (list_set pos idx (inc o x)) (inc ov x) (S idx)) as [pos' [ov' [Hc [Hl' Hk']]]].
    + rewrite length_list_set. lia.
    + apply Forall_list_set; [exact Hk|]. apply keys_within_inc; [|lia].
      exact (proj1 (Forall_forall _ _) Hk o (nth_error_In _ _ Ho)).
    + exact Ht.
    + exists pos', ov'. rewrite Hc, Hl', length_list_set. auto.
Qed.

Lemma freq_fold_ok (ds : list Draw) (a : Acc) :
  Forall well_formed ds ->
  length (a_pos a) = 6%nat -> length (a_bpos a) = 6%nat ->
  Forall (keys_within 0 9) (a_pos a) -> Forall (keys_within 0 9) (a_bpos a) ->
  keys_within 1 5 (a_group a) ->
  exists a', freq_fold a ds = Ok a' /\
    Forall (keys_within 0 9) (a_pos a') /\ keys_within 1 5 (a_group a').
Proof.
  revert a; induction ds as [|d t IH]; intros a Hw Hp Hb Hkp Hkb Hg; simpl.
  - exists a. auto.
  - inversion Hw as [|? ? [Hgr [Hdl [Hdk Hbw]]] Ht]; subst.
    destruct (count_digits_ok (digits (first d)) (a_pos a) (a_overall a) 0)
      as [pc [oc [Hc [Hpl Hpk]]]]; [lia|exact Hkp|exact Hdk|].
    assert (Hstep : exists a1, freq_step a d = Ok a1 /\
              length (a_pos a1) = 6%nat /\ length (a_bpos a1) = 6%nat /\
              Forall (keys_within 0 9) (a_pos a1) /\ Forall (keys_within 0 9) (a_bpos a1) /\
              keys_within 1 5 (a_group a1)).
    { unfold freq_step. rewrite Hc. simpl.
      destruct (bonus d) as [b|].
      - destruct Hbw as [Hbl Hbk].
        destruct (count_digits_ok (b_digits b) (a_bpos a) (a_boverall a) 0)
          as [bc [boc [Hc' [Hbl' Hbk']]]]; [lia|exact Hkb|exact Hbk|].
        rewrite Hc'. simpl. eexists. split; [reflexivity|]. simpl.
        split; [lia|split; [lia|split; [assumption|split; [assumption|]]]].
        apply keys_within_inc; assumption.
      - eexists. split; [reflexivity|]. simpl.
        split; [lia|split; [lia|split; [assumption|split; [assumption|]]]].
        apply keys_within_inc; assumption. }
    destruct Hstep as [a1 [Hs [H1 [H2 [H3 [H4 H5]]]]]].
    rewrite Hs. simpl. apply IH; assumption.
Qed.

(** ** Integer arithmetic on JavaScript numbers *)

Lemma iter_pos_iter {A} (f : A -> A) (p : positive) (x : A) : iter_pos f p x = Pos.iter f x p.
Proof.
  revert x; induction p as [p IH|p IH|]; intros x; simpl.
  - rewrite !IH, !Pos.iter_swap. reflexivity.
  - rewrite !IH. reflexivity.
  - reflexivity.
Qed.

Lemma iter_xO_Z (m k : positive) : Zpos (Pos.iter xO m k) = Zpos m * 2 ^ Zpos k.
Proof.
  induction k as [|k IH] using Pos.peano_ind; [simpl; lia|].
  rewrite Pos.iter_succ, Pos2Z.inj_succ, Z.pow_succ_r by lia.
  change (Zpos (Pos.iter xO m k)~0) with (2 * Zpos (Pos.iter xO m k)). rewrite IH. ring.
Qed.

Lemma digits2_iter_xO (m k : positive) : digits2_pos (Pos.iter xO m k) = (digits2_pos m + k)%positive.
Proof.
  induction k as [|k IH] using Pos.peano_ind; simpl; [lia|].
  rewrite Pos.iter_succ. simpl. rewrite IH. lia.
Qed.

Lemma digits2_bounds (m : positive) :
  2 ^ (Zpos (digits2_pos m) - 1) <= Zpos m < 2 ^ Zpos (digits2_pos m).
Proof.
  induction m as [m IH|m IH|]; [| |split; reflexivity];
  change (digits2_pos _) with (Pos.succ (digits2_pos m));
  rewrite Pos2Z.inj_succ; replace (Z.succ (Zpos (digits2_pos m)) - 1) with (Zpos (digits2_pos m)) by lia;
  rewrite Z.pow_succ_r by lia.
  1: change (Zpos m~1) with (2 * Zpos m + 1). 2: change (Zpos m~0) with (2 * Zpos m).
  all: pose proof (Pos2Z.is_pos (digits2_pos m)).
  all: set (d := Zpos (digits2_pos m)) in *.
  all: assert (Hd : 2 ^ d = 2 * 2 ^ (d - 1)) by (rewrite <- Z.pow_succ_r by lia; f_equal; lia).
  all: lia.
Qed.

Lemma shr_iter_exact (m k : positive) :
  Pos.iter shr_1 {| shr_m := Zpos (Pos.iter xO m k); shr_r := false; shr_s := false |} k
  = {| shr_m := Zpos m; shr_r := false; shr_s := false |}.
Proof.
  induction k as [|k IH] using Pos.peano_ind; [reflexivity|].
  rewrite Pos.iter_succ_r, Pos.iter_succ. simpl. exact IH.
Qed.

Lemma shr_fexp_scale (M j : positive) (E : Z) :
  E <= fexp 53 1024 (Zpos (digits2_pos M) + E) ->
  shr_fexp 53 1024 (Zpos (Pos.iter xO M j)) (E - Zpos j) loc_Exact
  = shr_fexp 53 1024 (Zpos M) E loc_Exact.
Proof.
  intros HF. unfold shr_fexp. cbn [Zdigits2 shr_record_of_loc].
  rewrite digits2_iter_xO.
  replace (Zpos (digits2_pos M + j) + (E - Zpos j)) with (Zpos (digits2_pos M) + E) by lia.
  set (F := fexp 53 1024 (Zpos (digits2_pos M) + E)) in *.
  unfold shr. destruct (F - E) as [|s|s] eqn:Hs; [| |lia].
  - replace (F - (E - Zpos j)) with (Zpos j) by lia.
    rewrite iter_pos_iter, shr_iter_exact. f_equal. lia.
  - replace (F - (E - Zpos j)) with (Zpos (s + j)) by lia.
    rewrite !iter_pos_iter, Pos.iter_add, shr_iter_exact. f_equal. lia.
Qed.

Lemma binary_round_aux_scale (sx : bool) (M j : positive) (E : Z) :
  E <= fexp 53 1024 (Zpos (digits2_pos M) + E) ->
  binary_round_aux 53 1024 sx (Zpos (Pos.iter xO M j)) (E - Zpos j) loc_Exact
  = binary_round_aux 53 1024 sx (Zpos M) E loc_Exact.
Proof. intros H. unfold binary_round_aux. rewrite shr_fexp_scale by exact H. reflexivity. Qed.

Lemma binary_round_scale (sx : bool) (m k : positive) (e : Z) :
  binary_round 53 1024 sx (Pos.iter xO m k) (e - Zpos k) = binary_round 53 1024 sx m e.
Proof.
  unfold binary_round. rewrite digits2_iter_xO.
  replace (Zpos (digits2_pos m + k) + (e - Zpos k)) with (Zpos (digits2_pos m) + e) by lia.
  set (F := fexp 53 1024 (Zpos (digits2_pos m) + e)).
  unfold shl_align.
  destruct (F - e) as [|p|p] eqn:Hp.
  - replace (F - (e - Zpos k)) with (Zpos k) by lia.
    rewrite binary_round_aux_scale; [reflexivity|]. fold F. lia.
  - replace (F - (e - Zpos k)) with (Zpos (p + k)) by lia.
    rewrite binary_round_aux_scale; [reflexivity|]. fold F. lia.
  - destruct (Pos.compare_spec k p) as [->|Hkp|Hkp].
    + replace (F - (e - Zpos p)) with 0 by lia. f_equal. lia.
    + replace (F - (e - Zpos k)) with (Zneg (p - k)) by lia.
      rewrite <- Pos.iter_add. replace (p - k + k)%positive with p by lia. reflexivity.
    + replace (F - (e - Zpos k)) with (Zpos (k - p)) by lia.
      replace k with ((k - p) + p)%positive at 1 by lia.
      rewrite Pos.iter_add.
      replace (e - Zpos k) with (F - Zpos (k - p)) by lia.
      rewrite binary_round_aux_scale; [reflexivity|].
      rewrite digits2_iter_xO.
      replace (Zpos (digits2_pos m + p) + F) with (Zpos (digits2_pos m) + e) by lia.
      fold F. lia.
Qed.

Lemma digits2_le_53 (m : positive) : Zpos m < 2 ^ 53 -> Zpos (digits2_pos m) <= 53.
Proof.
  intros Hm. pose proof (digits2_bounds m) as [Hl _].
  destruct (Z.le_gt_cases (Zpos (digits2_pos m)) 53) as [H|H]; [exact H|].
  assert (2 ^ 53 <= 2 ^ (Zpos (digits2_pos m) - 1)) by (apply Z.pow_le_mono_r; lia). lia.
Qed.

Lemma lt_pow_digits2 (m : positive) (n : Z) : Zpos (digits2_pos m) <= n -> Zpos m < 2 ^ n.
Proof.
  intros H. pose proof (digits2_bounds m) as [_ Hu].
  assert (2 ^ Zpos (digits2_pos m) <= 2 ^ n) by (apply Z.pow_le_mono_r; lia). lia.
Qed.

(** Rounding a mantissa of at most 53 bits at an exponent at least [emin]
    is exact. *)
(** Rounding a mantissa below 2^53 in the normal range is exact. *)
Lemma binary_round_exact (sx : bool) (m : positive) (e : Z) :
  Zpos m < 2 ^ 53 -> -1074 <= e <= 971 ->
  exists m' e', binary_round 53 1024 sx m e = S754_finite sx m' e' /\
    e' <= e /\ Zpos m' = Zpos m * 2 ^ (e - e') /\ Zpos m' < 2 ^ 53 /\ -1074 <= e'.
Proof.
  intros Hm He. pose proof (digits2_le_53 m Hm) as Hd.
  unfold binary_round.
  set (F := fexp 53 1024 (Zpos (digits2_pos m) + e)).
  assert (HF : F = Z.max (Zpos (digits2_pos m) + e - 53) (-1074)) by reflexivity.
  assert (HFe : F <= e) by lia.
  assert (Hal : exists M, shl_align m e F = (M, F) /\ Zpos M = Zpos m * 2 ^ (e - F) /\
                  Zpos (digits2_pos M) + F = Zpos (digits2_pos m) + e).
  { unfold shl_align. destruct (F - e) as [|p|p] eqn:Hp; [| lia |].
    - exists m. replace F with e by lia. rewrite Z.sub_diag, Z.mul_1_r. auto.
    - exists (Pos.iter xO m p). split; [f_equal; lia|].
      rewrite iter_xO_Z, digits2_iter_xO. split; [f_equal; f_equal; lia|lia]. }
  destruct Hal as [M [-> [HM HdM]]].
  unfold binary_round_aux, shr_fexp. cbn [Zdigits2].
  rewrite HdM. fold F. rewrite Z.sub_diag. cbn [shr shr_record_of_loc shr_m loc_of_shr_record round_nearest_even Zdigits2].
  rewrite HdM. fold F. rewrite Z.sub_diag. cbn [shr shr_m].
  replace (F <=? 1024 - 53) with true by (symmetry; apply Z.leb_le; lia).
  exists M, F. split; [reflexivity|]. split; [lia|]. split; [exact HM|].
  split; [apply lt_pow_digits2; lia|lia].
Qed.


Lemma shl_align_val (m : positive) (e e' : Z) :
  e' <= e -> Zpos (fst (shl_align m e e')) = Zpos m * 2 ^ (e - e').
Proof.
  intros H. unfold shl_align. destruct (e' - e) as [|p|p] eqn:Hp; cbn [fst]; [| lia |].
  - replace (e - e') with 0 by lia. rewrite Z.pow_0_r, Z.mul_1_r. reflexivity.
  - replace (e - e') with (Zpos p) by lia. apply iter_xO_Z.
Qed.

(** [js_of_Z] of a positive integer below [2^53]: exact, at an exponent in
    [-52, 0]. *)
Lemma js_of_pos (a : positive) :
  Zpos a < 2 ^ 53 ->
  exists m e, js_of_Z (Zpos a) = S754_finite false m e /\ -52 <= e <= 0 /\
    Zpos m = Zpos a * 2 ^ (- e) /\ Zpos m < 2 ^ 53.
Proof.
  intros Ha. unfold js_of_Z, binary_normalize.
  destruct (binary_round_exact false a 0 Ha ltac:(lia)) as [m [e [He [Hle [Hm [Hb Hemin]]]]]].
  rewrite He. exists m, e. split; [reflexivity|].
  rewrite Z.sub_0_l in Hm. split; [|auto].
  split; [|exact Hle].
  destruct (Z.le_gt_cases (-52) e) as [H|H]; [exact H|].
  assert (2 ^ 53 <= 2 ^ (- e)) by (apply Z.pow_le_mono_r; lia). nia.
Qed.

(** Below 2^53, adding non-negative integers is exact. *)
Lemma js_add_Z (a b : Z) :
  0 <= a -> 0 <= b -> a + b < 2 ^ 53 -> js_add (js_of_Z a) (js_of_Z b) = js_of_Z (a + b).
Proof.
  intros Ha Hb Hab.
  destruct a as [|a|a]; [| |lia]; (destruct b as [|b|b]; [| |lia]).
  - reflexivity.
  - destruct (js_of_pos b ltac:(lia)) as [m [e [He _]]]. rewrite Z.add_0_l, He. reflexivity.
  - destruct (js_of_pos a ltac:(lia)) as [m [e [He _]]]. rewrite Z.add_0_r, He. reflexivity.
  - destruct (js_of_pos a ltac:(lia)) as [ma [ea [Hja [Hea [Hma _]]]]].
    destruct (js_of_pos b ltac:(lia)) as [mb [eb [Hjb [Heb [Hmb _]]]]].
    rewrite Hja, Hjb. unfold js_add, SFadd. cbn [cond_Zopp].
    set (ez := Z.min ea eb).
    assert (H1 : Zpos (fst (shl_align ma ea ez)) = Zpos a * 2 ^ (- ez)).
    { rewrite shl_align_val by lia. rewrite Hma, <- Z.mul_assoc, <- Z.pow_add_r by lia.
      f_equal. f_equal. lia. }
    assert (H2 : Zpos (fst (shl_align mb eb ez)) = Zpos b * 2 ^ (- ez)).
    { rewrite shl_align_val by lia. rewrite Hmb, <- Z.mul_assoc, <- Z.pow_add_r by lia.
      f_equal. f_equal. lia. }
    change (Zpos (fst (shl_align ma ea ez)) + Zpos (fst (shl_align mb eb ez)))
      with (Zpos (fst (shl_align ma ea ez) + fst (shl_align mb eb ez))).
    unfold js_of_Z. change (Zpos a + Zpos b) with (Zpos (a + b)).
    cbn [binary_normalize].
    destruct ez as [|q|q] eqn:Hez; [| unfold ez in Hez; lia |].
    + f_equal. apply Pos2Z.inj. rewrite Pos2Z.inj_add, H1, H2. simpl. lia.
    + replace (fst (shl_align ma ea (Zneg q)) + fst (shl_align mb eb (Zneg q)))%positive
        with (Pos.iter xO (a + b)%positive q).
      * rewrite <- (binary_round_scale false (a + b)%positive q 0). reflexivity.
      * apply Pos2Z.inj. rewrite iter_xO_Z, !Pos2Z.inj_add, H1, H2. change (- Zneg q) with (Zpos q). ring.
Qed.

(** Below 2^53, [%] of non-negative integers is [mod]. *)
Lemma js_rem_Z (a d : Z) :
  0 <= a < 2 ^ 53 -> 0 < d < 2 ^ 53 -> js_rem (js_of_Z a) (js_of_Z d) = js_of_Z (a mod d).
Proof.
  intros Ha Hd.
  destruct d as [|d|d]; [lia| |lia].
  destruct (js_of_pos d ltac:(lia)) as [md [ed [Hjd [Hed [Hmd _]]]]].
  destruct a as [|a|a]; [|  |lia].
  - rewrite Hjd. reflexivity.
  - destruct (js_of_pos a ltac:(lia)) as [ma [ea [Hja [Hea [Hma _]]]]].
    rewrite Hja, Hjd. unfold js_rem. cbn [cond_Zopp].
    set (ez := Z.min ea ed).
    assert (H1 : Zpos (fst (shl_align ma ea ez)) = Zpos a * 2 ^ (- ez)).
    { rewrite shl_align_val by lia. rewrite Hma, <- Z.mul_assoc, <- Z.pow_add_r by lia.
      f_equal. f_equal. lia. }
    assert (H2 : Zpos (fst (shl_align md ed ez)) = Zpos d * 2 ^ (- ez)).
    { rewrite shl_align_val by lia. rewrite Hmd, <- Z.mul_assoc, <- Z.pow_add_r by lia.
      f_equal. f_equal. lia. }
    rewrite H1, H2, Z.rem_mod_nonneg by (try apply Z.mul_nonneg_nonneg; try apply Z.mul_pos_pos;
                                          try apply Z.pow_pos_nonneg; try apply Z.pow_nonneg; lia).
    rewrite Z.mul_mod_distr_r by (try apply Z.pow_pos_nonneg; lia).
    pose proof (Z.mod_pos_bound (Zpos a) (Zpos d) ltac:(lia)) as Hr.
    unfold js_of_Z.
    destruct (Zpos a mod Zpos d) as [|r|r] eqn:Hrm; [reflexivity| |lia].
    destruct ez as [|q|q] eqn:Hez; [| unfold ez in Hez; lia |].
    + rewrite Z.pow_0_r, Z.mul_1_r. reflexivity.
    + change (- Zneg q) with (Zpos q). rewrite <- iter_xO_Z.
      cbn [binary_normalize]. rewrite <- (binary_round_scale false r q 0). reflexivity.
Qed.

Lemma js_array_index_Z (a : Z) : 0 <= a < 2 ^ 53 -> js_array_index (js_of_Z a) = Some a.
Proof.
  intros Ha. destruct a as [|a|a]; [reflexivity| |lia].
  destruct (js_of_pos a ltac:(lia)) as [m [e [He [Hee [Hm _]]]]].
  rewrite He. unfold js_array_index.
  destruct (0 <=? e) eqn:H0.
  - apply Z.leb_le in H0. replace e with 0 in * by lia. rewrite Z.pow_0_r, Z.mul_1_r.
    rewrite Z.opp_0, Z.pow_0_r, Z.mul_1_r in Hm. rewrite Hm. reflexivity.
  - rewrite Hm, Z.mod_mul, Z.div_mul by (apply Z.pow_nonzero; lia). reflexivity.
Qed.


Lemma valid_nice (x : num) : valid_binary 53 1024 x = true -> js_nice x.
Proof.
  destruct x as [| | |s m e]; cbn [valid_binary js_nice]; auto.
  unfold bounded, canonical_mantissa. intros H. apply andb_prop in H as [H _].
  apply Z.eqb_eq in H.
  assert (Hx : Z.max (Zpos (digits2_pos m) + e - 53) (-1074) = e) by exact H.
  split; [apply lt_pow_digits2|]; lia.
Qed.

Lemma shr_1_div2 (r : shr_record) : 0 <= shr_m r -> shr_m (shr_1 r) = shr_m r / 2.
Proof.
  intros H. rewrite <- Z.div2_div. destruct r as [[|[p|p|]|p] rr ss]; simpl in *; try reflexivity; lia.
Qed.

Lemma iter_shr_div (p : positive) (r : shr_record) :
  0 <= shr_m r -> shr_m (Pos.iter shr_1 r p) = shr_m r / 2 ^ Zpos p.
Proof.
  intros H. induction p as [|p IH] using Pos.peano_ind.
  - simpl. apply shr_1_div2, H.
  - rewrite Pos.iter_succ, shr_1_div2, IH.
    + rewrite Z.div_div by (try apply Z.pow_pos_nonneg; lia).
      rewrite Pos2Z.inj_succ, Z.pow_succ_r by lia. f_equal. ring.
    + rewrite IH. apply Z.div_pos; [exact H|apply Z.pow_pos_nonneg; lia].
Qed.

Lemma shr_fexp_bound (m E : Z) (l : location) :
  0 <= m ->
  0 <= shr_m (fst (shr_fexp 53 1024 m E l)) < 2 ^ 53 /\ -1074 <= snd (shr_fexp 53 1024 m E l).
Proof.
  intros Hm. unfold shr_fexp.
  assert (Hl : shr_m (shr_record_of_loc m l) = m) by (destruct l as [|[]]; reflexivity).
  set (F := fexp 53 1024 (Zdigits2 m + E)).
  assert (HF : F = Z.max (Zdigits2 m + E - 53) (-1074)) by reflexivity.
  assert (Hd : forall n, Zdigits2 m <= n -> m < 2 ^ n).
  { intros n Hn. destruct m as [|p|p]; [apply Z.pow_pos_nonneg; simpl in Hn; lia| |lia].
    apply lt_pow_digits2. exact Hn. }
  assert (Hd0 : 0 <= Zdigits2 m) by (destruct m; simpl; lia).
  unfold shr. destruct (F - E) as [|s|s] eqn:Hs; cbn [fst snd].
  - rewrite Hl. split; [split; [lia|apply Hd; lia]|lia].
  - rewrite iter_pos_iter, iter_shr_div, Hl by (rewrite Hl; exact Hm).
    split; [split|lia].
    + apply Z.div_pos; [exact Hm|apply Z.pow_pos_nonneg; lia].
    + apply Z.div_lt_upper_bound; [apply Z.pow_pos_nonneg; lia|].
      rewrite <- Z.pow_add_r by lia. apply Hd. lia.
  - rewrite Hl. split; [split; [lia|apply Hd; lia]|lia].
Qed.

Lemma binary_round_aux_nice (sx : bool) (m E : Z) (l : location) :
  0 <= m -> js_nice (binary_round_aux 53 1024 sx m E l).
Proof.
  intros Hm. unfold binary_round_aux.
  pose proof (shr_fexp_bound m E l Hm) as [[H1a H1b] H1c].
  destruct (shr_fexp 53 1024 m E l) as [r1 e1]. cbn [fst snd] in *.
  set (m1 := round_nearest_even (shr_m r1) (loc_of_shr_record r1)).
  assert (Hm1 : 0 <= m1) by (unfold m1, round_nearest_even; destruct (loc_of_shr_record r1) as [|[]];
                               try destruct (Z.even _); lia).
  pose proof (shr_fexp_bound m1 e1 loc_Exact Hm1) as [[H2a H2b] H2c].
  destruct (shr_fexp 53 1024 m1 e1 loc_Exact) as [r2 e2]. cbn [fst snd] in *.
  revert H2a H2b. destruct (shr_m r2) as [|p|p]; intros; cbn [js_nice]; auto.
  destruct (e2 <=? 1024 - 53); cbn [js_nice]; auto.
Qed.

Lemma binary_normalize_nice (m e : Z) (sz : bool) : js_nice (binary_normalize 53 1024 m e sz).
Proof.
  destruct m as [|p|p]; simpl; [exact I| |]; unfold binary_round;
    destruct (shl_align _ _ _); apply binary_round_aux_nice; lia.
Qed.

Lemma js_add_nice (x y : num) : js_nice x -> js_nice y -> js_nice (js_add x y).
Proof.
  intros Hx Hy. unfold js_add.
  destruct x as [sx|sx| |sx mx ex], y as [sy|sy| |sy my ey]; cbn [SFadd]; auto;
    try (destruct sx, sy; cbn [js_nice]; auto); apply binary_normalize_nice.
Qed.

Lemma js_of_Z_nice (z : Z) : js_nice (js_of_Z z).
Proof. apply binary_normalize_nice. Qed.

(** [x % s] names no index at or above [s], whatever [x]. *)
Lemma js_rem_index_bound (x : num) (s k : Z) :
  js_nice x -> 0 < s < 2 ^ 53 ->
  js_array_index (js_rem x (js_of_Z s)) = Some k -> 0 <= k < s.
Proof.
  intros Hx Hs.
  destruct s as [|s|s]; [lia| |lia].
  destruct (js_of_pos s ltac:(lia)) as [md [ed [Hjd [Hed [Hmd Hmdb]]]]].
  rewrite Hjd.
  destruct x as [sx|sx| |sn mn en]; cbn [js_rem js_array_index];
    [intros [= <-]; lia|discriminate|discriminate|].
  destruct Hx as [Hmn Hen].
  set (e := Z.min en ed).
  assert (HN : Zpos (fst (shl_align mn en e)) = Zpos mn * 2 ^ (en - e)) by (apply shl_align_val; lia).
  assert (HD : Zpos (fst (shl_align md ed e)) = Zpos s * 2 ^ (- e)).
  { rewrite shl_align_val by lia. rewrite Hmd, <- Z.mul_assoc, <- Z.pow_add_r by lia.
    f_equal. f_equal. lia. }
  set (R := Z.rem (Zpos (fst (shl_align mn en e))) (Zpos (fst (shl_align md ed e)))).
  assert (HR : 0 <= R < Zpos (fst (shl_align md ed e))).
  { unfold R. rewrite Z.rem_mod_nonneg by lia. apply Z.mod_pos_bound. lia. }
  assert (HR53 : R < 2 ^ 53).
  { destruct (Z.le_gt_cases en ed) as [Hle|Hgt].
    - assert (Hee : en - e = 0) by (unfold e; lia).
      assert (R <= Zpos mn); [|lia].
      unfold R. rewrite Z.rem_mod_nonneg by lia. rewrite HN, Hee.
      rewrite Z.pow_0_r, Z.mul_1_r. apply Z.mod_le; lia.
    - assert (Hee : ed - e = 0) by (unfold e; lia).
      assert (Zpos (fst (shl_align md ed e)) = Zpos md) by (rewrite shl_align_val by lia; rewrite Hee;
        rewrite Z.pow_0_r, Z.mul_1_r; reflexivity).
      lia. }
  fold R.
  assert (He : -1074 <= e <= 0) by (unfold e; lia).
  destruct R as [|r|r] eqn:HRe; [|  |lia]; destruct sn; cbn [cond_Zopp Z.opp binary_normalize].
  - intros [= <-]. lia.
  - intros [= <-]. lia.
  - destruct (binary_round_exact true r e ltac:(lia) ltac:(lia)) as [m' [e' [-> _]]]. discriminate.
  - destruct (binary_round_exact false r e ltac:(lia) ltac:(lia)) as [m' [e' [-> [Hle [Hm' _]]]]].
    cbn [js_array_index].
    destruct (0 <=? e') eqn:H0.
    + apply Z.leb_le in H0. replace e' with 0 in * by lia. replace e with 0 in * by lia.
      intros [= <-]. rewrite Z.pow_0_r, Z.mul_1_r in *. lia.
    + apply Z.leb_gt in H0.
      destruct (Zpos m' mod 2 ^ (- e') =? 0) eqn:Hmod; [|discriminate].
      apply Z.eqb_eq in Hmod. intros [= <-].
      assert (Hp : 0 < 2 ^ (- e')) by (apply Z.pow_pos_nonneg; lia).
      pose proof (Z.div_mod (Zpos m') (2 ^ (- e')) ltac:(lia)) as Hdm. rewrite Hmod, Z.add_0_r in Hdm.
      split; [apply Z.div_pos; lia|].
      assert (Hlt : Zpos m' < Zpos s * 2 ^ (- e')).
      { rewrite Hm'. replace (- e') with (- e + (e - e')) by lia.
        rewrite Z.pow_add_r by lia. rewrite Z.mul_assoc, <- HD.
        apply Z.mul_lt_mono_pos_r; [apply Z.pow_pos_nonneg; lia|lia]. }
      nia.
Qed.

Lemma js_add_nice_r (x y : num) :
  js_nice y -> (forall sy, y <> S754_zero sy) -> js_nice (js_add x y).
Proof.
  intros Hy Hz. unfold js_add.
  destruct x as [sx|sx| |sx mx ex], y as [sy|sy| |sy my ey]; cbn [SFadd];
    try (exfalso; exact (Hz _ eq_refl)); try exact Hy;
    try (destruct sx, sy); cbn [js_nice]; auto; apply binary_normalize_nice.
Qed.

Lemma js_of_Z_pos_nonzero (a : Z) (s : bool) : 0 < a < 2 ^ 53 -> js_of_Z a <> S754_zero s.
Proof.
  intros Ha. destruct a as [|a|a]; [lia| |lia].
  destruct (js_of_pos a ltac:(lia)) as [m [e [-> _]]]. discriminate.
Qed.

Lemma js_array_index_nonneg (x : num) (k : Z) : js_array_index x = Some k -> 0 <= k.
Proof.
  destruct x as [s|s| |[|] m e]; cbn [js_array_index]; try discriminate; [intros [= <-]; lia|].
  destruct (0 <=? e) eqn:He.
  - intros H. replace k with (Zpos m * 2 ^ e) by congruence. apply Z.leb_le in He.
    apply Z.mul_nonneg_nonneg; [lia|apply Z.pow_nonneg; lia].
  - destruct (_ =? 0); [|discriminate]. intros H. replace k with (Zpos m / 2 ^ (- e)) by congruence.
    apply Z.div_pos; [lia|apply Z.pow_pos_nonneg; lia].
Qed.


Lemma js_index_inv {A} (l : list A) (x : num) (y : A) :
  js_index l x = Some y ->
  exists k, js_array_index x = Some k /\ 0 <= k < Z.of_nat (length l) /\ nth_error l (Z.to_nat k) = Some y.
Proof.
  unfold js_index. destruct (js_array_index x) as [k|] eqn:Hx; [|discriminate].
  destruct (k <? Z.of_nat (length l)) eqn:Hk; [|discriminate].
  apply Z.ltb_lt in Hk. pose proof (js_array_index_nonneg x k Hx).
  intros Hy. exists k. auto.
Qed.


(** Whatever the index, [pickIndex] names an index below the span, 1, 3 or 6
    (or none at all). *)
Lemma pickIndex_span (tier : Tier) (pos : nat) (idx : num) (len : nat) (k : Z) :
  (1 <= pos <= 6)%nat -> (1 <= len)%nat -> js_array_index (pickIndex tier pos idx len) = Some k ->
  (Z.to_nat k < Nat.min (match tier with Top => 1 | TopMix => 3 | Mix => 6 end) len)%nat.
Proof.
  intros Hp Hl. unfold pickIndex.
  destruct (len <=? 1)%nat eqn:H1.
  - apply Nat.leb_le in H1. intros H. replace k with 0 by (vm_compute in H; congruence).
    replace len with 1%nat by lia. destruct tier; exact Nat.lt_0_1.
  - apply Nat.leb_gt in H1.
    set (sp := match tier with Top => Nat.min 1 len | TopMix => Nat.min 3 len
                             | Mix => Nat.min 6 len end).
    assert (Hsp : (1 <= sp <= 6)%nat) by (unfold sp; destruct tier; lia).
    cbv zeta. intros Hk.
    apply js_rem_index_bound in Hk; [| |lia].
    + assert (Hs : sp = Nat.min (match tier with Top => 1 | TopMix => 3 | Mix => 6 end) len)
        by (unfold sp; destruct tier; reflexivity).
      rewrite <- Hs. lia.
    + apply js_add_nice; [|apply js_of_Z_nice].
      apply js_add_nice_r; [apply js_of_Z_nice|].
      intros sy. apply js_of_Z_pos_nonzero. lia.
Qed.





Lemma keys_within_zeros (lo n : nat) :
  keys_within lo (lo + n - 1) (map (fun d => (d, 0%nat)) (seq lo n)).
Proof. intros x Hx. rewrite keys_zeros, in_seq in Hx. lia. Qed.


Lemma group_rank_perm (now : jstr) (draws : list Draw) (fr : Freq) :
  Forall well_formed draws -> buildFreq now draws = Ok fr ->
  Permutation (map fst (cs_ranked (group_stat fr))) (seq 1 5).
Proof.
  intros Hw Hb.
  assert (H0 : Forall (keys_within 0 9) (a_pos acc0)).
  { apply Forall_forall. intros o Ho. apply repeat_spec in Ho. subst o.
    apply (keys_within_zeros 0 10). }
  destruct (freq_fold_ok draws acc0 Hw eq_refl eq_refl H0 H0 (keys_within_zeros 1 5))
    as [a [Hf [_ Hkg]]].
  destruct (freq_fold_rel _ _ _ Hf) as [[_ [Hgood Hkeys]] _].
  unfold buildFreq in Hb. rewrite Hf in Hb. simpl in Hb. injection Hb as <-.
  change (Permutation (map fst (rankCounts (a_group a))) (seq 1 5)).
  rewrite rankCounts_keys.
  etransitivity; [symmetry; apply sort_by_perm|].
  apply NoDup_Permutation; [apply good_NoDup, Hgood, good_groups0|apply seq_NoDup|].
  intros x. rewrite in_seq. split.
  - intros Hx. apply Hkg in Hx. lia.
  - intros Hx. apply Hkeys. apply keys_groups0. lia.
Qed.


(** C5 (failing inputs): [main] passes any finite [--cycle] on to
    [recommendFromFreq], and the index [cycle + i] is used as an array index
    without being made a non-negative integer.  With the one-draw history of
    the worked example and [--no-update --recommend 1]:
    - [--cycle -1]: [groupRank[-1 % 5]] is [groupRank[-1]], [undefined];
    - [--cycle 0.5]: every index is fractional, the group and all six digits
      are [undefined];
    - [--cycle 9007199254740992] (2^53): [cycle + 1] rounds to [cycle], so the
      first two of the five tickets have the same group.
    A ticket is [{ group, digits }]: it has no [alternateGroups] at all. *)
Theorem main_cycle_not_index :
  let fs := {| draws_file := Some [draw_303]; freq_file := None |} in
  let run c := snd (main {| noUpdate := true; recommend := js_of_Z 1; cycle := c |} [] [] fs) in
  (exists r1 r5 r10, run (js_of_Z (-1)) = Ok (Some (r1, r5, r10)) /\ map t_group r1 = [None]) /\
  (exists r1 r5 r10, run (binary_normalize 53 1024 1 (-1) false) = Ok (Some (r1, r5, r10)) /\
     map t_group r1 = [None] /\ map t_digits r1 = [repeat None 6]) /\
  (exists r1 r5 r10 t0 t1 ts, run (js_of_Z (2 ^ 53)) = Ok (Some (r1, r5, r10)) /\
     r5 = t0 :: t1 :: ts /\ t_group t0 = t_group t1).
Proof.
  intros fs run. vm_compute.
  split; [|split].
  - do 3 eexists. split; reflexivity.
  - do 3 eexists. split; [reflexivity|split; reflexivity].
  - do 6 eexists. split; [reflexivity|split; reflexivity].
Qed.



(** ** Re-running the merge *)

Lemma last_with_app (r : nat) (l1 l2 : list Draw) :
  last_with r (l1 ++ l2) = match last_with r l2 with Some x => Some x | None => last_with r l1 end.
Proof.
  induction l1 as [|d t IH]; simpl.
  - destruct (last_with r l2); reflexivity.
  - rewrite IH. destruct (last_with r l2); reflexivity.
Qed.

Lemma last_with_none (r : nat) (l : list Draw) (d : Draw) :
  last_with r l = None -> In d l -> round d <> r.
Proof.
  induction l as [|x t IH]; simpl; [intros _ []|].
  destruct (last_with r t) as [y|]; [discriminate|].
  case_eq (Nat.eqb (round x) r); intros Hx; [discriminate|].
  intros _ [->|Hd]; [apply Nat.eqb_neq; exact Hx|exact (IH eq_refl Hd)].
Qed.

Definition round_lt (a b : Draw) : Prop := (round a < round b)%nat.

Lemma sorted_round_same (l : list Draw) (x y : Draw) :
  StronglySorted round_lt l -> In x l -> In y l -> round x = round y -> x = y.
Proof.
  induction 1 as [|a t Ht IH Hf]; [intros []|].
  rewrite Forall_forall in Hf. unfold round_lt in Hf.
  intros [<-|Hx] [<-|Hy] He; auto.
  - specialize (Hf y Hy). lia.
  - specialize (Hf x Hx). lia.
Qed.

Lemma sorted_round_unique (l1 l2 : list Draw) :
  StronglySorted round_lt l1 -> StronglySorted round_lt l2 ->
  (forall d, In d l1 <-> In d l2) -> l1 = l2.
Proof.
  intros H1. revert l2. induction H1 as [|a t Ht IH Hf]; intros l2 H2 Hiff.
  - destruct l2 as [|b u]; [reflexivity|]. exfalso. apply (proj2 (Hiff b)). now left.
  - destruct l2 as [|b u]; [exfalso; apply (proj1 (Hiff a)); now left|].
    apply StronglySorted_inv in H2 as [Hu Hg].
    rewrite Forall_forall in Hf, Hg. unfold round_lt in Hf, Hg.
    assert (Hab : a = b).
    { destruct (proj1 (Hiff a) (or_introl eq_refl)) as [->|Ha]; [reflexivity|].
      destruct (proj2 (Hiff b) (or_introl eq_refl)) as [->|Hb]; [reflexivity|].
      specialize (Hf b Hb). specialize (Hg a Ha). lia. }
    subst b. f_equal. apply IH; [exact Hu|]. intros d. split.
    + intros Hd. destruct (proj1 (Hiff d) (or_intror Hd)) as [<-|H]; [|exact H].
      specialize (Hf a Hd). lia.
    + intros Hd. destruct (proj2 (Hiff d) (or_intror Hd)) as [<-|H]; [|exact H].
      specialize (Hg a Hd). lia.
Qed.

(** What [merge] holds: exactly the last record of each round of [P ++ F],
    strictly ascending by round. *)
Lemma merge_char (P F : list Draw) :
  (forall d, In d (merge P F) <-> last_with (round d) (P ++ F) = Some d) /\
  StronglySorted round_lt (merge P F).
Proof.
  rewrite merge_eq.
  set (m := fold_left set_round F (fold_left set_round P [])).
  assert (Hk : keyed m) by (apply keyed_fold, keyed_fold; split; constructor).
  destruct Hk as [Hnd Hwk].
  assert (Hperm := sort_by_perm by_round (map snd m)).
  assert (Hlook : forall r, assoc_nat r m = last_with r (P ++ F)).
  { intros r. unfold m. rewrite assoc_fold_set, assoc_fold_set, last_with_app. simpl.
    destruct (last_with r F); [reflexivity|]. now destruct (last_with r P). }
  assert (Hkeys : map round (map snd m) = map fst m).
  { rewrite map_map. apply map_ext_in. intros e He.
    exact (proj1 (Forall_forall _ _) Hwk e He). }
  split.
  - intros d. split.
    + intros Hd. apply Permutation_sym in Hperm.
      apply (Permutation_in _ Hperm) in Hd. apply in_map_iff in Hd as [[k v] [Hv He]].
      simpl in Hv; subst v.
      assert (Hr : round d = k) by exact (proj1 (Forall_forall _ _) Hwk _ He).
      rewrite Hr, <- Hlook. exact (keyed_assoc m k d Hnd He).
    + intros Hd. rewrite <- Hlook in Hd. eapply Permutation_in; [exact Hperm|].
      change d with (snd (round d, d)). apply in_map. now apply assoc_in.
  - assert (Hnd' : NoDup (map round (sort_by by_round (map snd m)))).
    { eapply Permutation_NoDup; [apply Permutation_map; exact Hperm|].
      now rewrite Hkeys. }
    eapply strongly_sorted_strict with (R := cmp_le by_round) (f := round); [| |exact Hnd'].
    + intros a b Hab Hne. unfold cmp_le, by_round in Hab. unfold round_lt. lia.
    + apply sort_by_strongly_sorted; [exact by_round_flip|exact by_round_trans].
Qed.

Lemma merge_ext (P F Q G : list Draw) :
  (forall r, last_with r (P ++ F) = last_with r (Q ++ G)) -> merge P F = merge Q G.
Proof.
  intros H. destruct (merge_char P F) as [H1 S1]. destruct (merge_char Q G) as [H2 S2].
  apply sorted_round_unique; [exact S1|exact S2|].
  intros d. rewrite H1, H2, H. reflexivity.
Qed.

Lemma last_with_merge (P F : list Draw) (r : nat) :
  last_with r (merge P F) = last_with r (P ++ F).
Proof.
  destruct (merge_char P F) as [Hc Hs].
  case_eq (last_with r (P ++ F)).
  - intros x Hx. destruct (last_with_round _ _ _ Hx) as [Hr _].
    assert (Hin : In x (merge P F)) by (apply Hc; rewrite Hr; exact Hx).
    case_eq (last_with r (merge P F)).
    + intros y Hy. destruct (last_with_round _ _ _ Hy) as [Hry Hiny].
      f_equal. apply (sorted_round_same _ _ _ Hs Hiny Hin). congruence.
    + intros Hn. exfalso. exact (last_with_none _ _ _ Hn Hin Hr).
  - intros Hn. case_eq (last_with r (merge P F)); [|reflexivity].
    intros y Hy. destruct (last_with_round _ _ _ Hy) as [Hry Hiny].
    apply Hc in Hiny. rewrite Hry, Hn in Hiny. discriminate.
Qed.

Lemma merge_idem (P F : list Draw) : merge (merge P F) F = merge P F.
Proof.
  apply merge_ext. intros r. rewrite !last_with_app, last_with_merge, last_with_app.
  destruct (last_with r F); reflexivity.
Qed.

(** Two successive merges, first with [F] then with [G], give the merge
    with [F ++ G] in one step. *)
Theorem merge_compose (P F G : list Draw) : merge (merge P F) G = merge P (F ++ G).
Proof.
  apply merge_ext. intros r.
  rewrite last_with_app, last_with_merge, <- last_with_app, app_assoc. reflexivity.
Qed.

Lemma buildFreq_now (now now' : jstr) (draws : list Draw) (fr : Freq) :
  buildFreq now draws = Ok fr -> buildFreq now' draws = Ok (with_updatedAt now' fr).
Proof. unfold buildFreq. destruct (freq_fold acc0 draws); [|discriminate]. intros [= <-]. reflexivity. Qed.

Lemma buildFreq_now_err (now now' : jstr) (draws : list Draw) (e : js_error) :
  buildFreq now draws = Throw e -> buildFreq now' draws = Throw e.
Proof. unfold buildFreq. destruct (freq_fold acc0 draws); [discriminate|]. exact (fun H => H). Qed.

(** Running the update a second time on the same page text, from the files
    the first run left, writes the same draws file, a frequency table that
    differs at most in [updatedAt], and gives the same outcome. *)
Theorem main_rerun (args : Args) (text now now' : jstr) (fs fs1 fs2 : FS) res1 res2 :
  noUpdate args = false ->
  main args text now fs = (fs1, res1) ->
  main args text now' fs1 = (fs2, res2) ->
  draws_file fs2 = draws_file fs1 /\
  (forall t, option_map (with_updatedAt t) (freq_file fs2)
             = option_map (with_updatedAt t) (freq_file fs1)) /\
  res2 = res1.
Proof.
  intros Hn. unfold main. rewrite Hn. simpl.
  destruct (extractDraws text) as [F|e]; simpl.
  2: { intros [= <- <-] [= <- <-]. auto. }
  set (M := merge match draws_file fs with Some ds => ds | None => [] end F).
  case_eq (buildFreq now M); [intros fr Hb|intros e Hb].
  - destruct (js_gt0 (recommend args)) eqn:Hr; intros [= <- <-]; simpl;
      unfold M; rewrite merge_idem; fold M;
      rewrite (buildFreq_now now now' M fr Hb);
      intros [= <- <-]; simpl; (split; [reflexivity|split; [intros; reflexivity|]]);
      reflexivity.
  - intros [= <- <-]. simpl. unfold M; rewrite merge_idem; fold M.
    rewrite (buildFreq_now_err now now' M e Hb).
    intros [= <- <-]. auto.
Qed.

Lemma main_rerun_witness :
  let args := {| noUpdate := false; recommend := js_of_Z 1; cycle := js_of_Z 0 |} in
  let r1 := main args scenario_text (codes "t1") {| draws_file := None; freq_file := None |} in
  let r2 := main args scenario_text (codes "t2") (fst r1) in
  draws_file (fst r2) = draws_file (fst r1).
Proof.
  intros args r1 r2.
  refine (proj1 (main_rerun args scenario_text (codes "t1") (codes "t2")
                   {| draws_file := None; freq_file := None |} (fst r1) (fst r2) (snd r1) (snd r2)
                   eq_refl _ _)); apply surjective_pairing.
Defined.

(** ** When [buildFreq] throws *)

(** At most six primary digits and at most six bonus digits: the lengths
    [posCounts[idx]] and [bonusPosCounts[idx]] can index. *)
Definition fits_positions (d : Draw) : Prop :=
  (length (digits (first d)) <= 6)%nat /\
  match bonus d with Some b => (length (b_digits b) <= 6)%nat | None => True end.

Lemma count_digits_len (ds : list nat) (pos : list obj) (ov : obj) (idx : nat) :
  match count_digits pos ov ds idx with
  | Ok r => (length ds = 0 \/ idx + length ds <= length pos)%nat /\ length (fst r) = length pos
  | Throw e => e = TypeError /\ (length pos < idx + length ds)%nat
  end.
Proof.
  revert pos ov idx; induction ds as [|x t IH]; intros pos ov idx; simpl.
  - lia.
  - destruct (nth_error pos idx) as [o|] eqn:Ho.
    + specialize (IH (list_set pos idx (inc o x)) (inc ov x) (S idx)).
      rewrite length_list_set in IH.
      assert (Hl : (idx < length pos)%nat) by (apply nth_error_Some; congruence).
      destruct (count_digits (list_set pos idx (inc o x)) (inc ov x) t (S idx));
        destruct IH as [H1 H2]; split; first [assumption|lia].
    + apply nth_error_None in Ho. split; [reflexivity|lia].
Qed.

Lemma freq_step_len (a : Acc) (d : Draw) :
  length (a_pos a) = 6%nat -> length (a_bpos a) = 6%nat ->
  match freq_step a d with
  | Ok a1 => fits_positions d /\ length (a_pos a1) = 6%nat /\ length (a_bpos a1) = 6%nat
  | Throw e => e = TypeError /\ ~ fits_positions d
  end.
Proof.
  intros Hp Hb. unfold freq_step, fits_positions.
  pose proof (count_digits_len (digits (first d)) (a_pos a) (a_overall a) 0) as Hc.
  destruct (count_digits (a_pos a) (a_overall a) (digits (first d)) 0) as [[pc oc]|e];
    simpl in *.
  2: { destruct Hc as [He Hl]. split; [exact He|]. intros [H1 _]. lia. }
  destruct Hc as [Hc1 Hc2].
  destruct (bonus d) as [b|].
  - pose proof (count_digits_len (b_digits b) (a_bpos a) (a_boverall a) 0) as Hc'.
    destruct (count_digits (a_bpos a) (a_boverall a) (b_digits b) 0) as [[bc boc]|e];
      simpl in *.
    + destruct Hc' as [Hb1 Hb2]. split; [split; lia|split; lia].
    + destruct Hc' as [He Hl]. split; [exact He|]. intros [_ H2]. lia.
  - simpl. split; [split; [lia|exact I]|split; lia].
Qed.

Lemma freq_fold_len (ds : list Draw) (a : Acc) :
  length (a_pos a) = 6%nat -> length (a_bpos a) = 6%nat ->
  match freq_fold a ds with
  | Ok _ => Forall fits_positions ds
  | Throw e => e = TypeError /\ ~ Forall fits_positions ds
  end.
Proof.
  revert a; induction ds as [|d t IH]; intros a Hp Hb; simpl; [constructor|].
  pose proof (freq_step_len a d Hp Hb) as Hs.
  destruct (freq_step a d) as [a1|e]; simpl.
  - destruct Hs as [Hf [Hp1 Hb1]]. specialize (IH a1 Hp1 Hb1).
    destruct (freq_fold a1 t).
    + constructor; assumption.
    + destruct IH as [He Hn]. split; [exact He|]. intros Hall. inversion Hall. auto.
  - destruct Hs as [He Hn]. split; [exact He|]. intros Hall. inversion Hall. auto.
Qed.

(** [buildFreq] throws only a TypeError, and it does so exactly when some
    record has more than six primary digits or more than six bonus digits:
    [posCounts[idx]] is then [undefined]. *)
Theorem buildFreq_throws_iff (now : jstr) (draws : list Draw) :
  (forall e, buildFreq now draws = Throw e -> e = TypeError) /\
  ((exists fr, buildFreq now draws = Ok fr) <-> Forall fits_positions draws).
Proof.
  pose proof (freq_fold_len draws acc0 eq_refl eq_refl) as H.
  unfold buildFreq. destruct (freq_fold acc0 draws) as [a|e]; simpl.
  - split; [discriminate|]. split; [intros _; exact H|intros _; eexists; reflexivity].
  - destruct H as [He Hn]. split; [intros e' [= <-]; exact He|].
    split; [intros [fr Hfr]; discriminate|intros Hall; contradiction].
Qed.

(** ** The [rounds] summary *)

Lemma fold_min_spec (t : list nat) (a : nat) :
  (fold_left Nat.min t a = a \/ In (fold_left Nat.min t a) t) /\
  (fold_left Nat.min t a <= a)%nat /\ (forall x, In x t -> fold_left Nat.min t a <= x)%nat.
Proof.
  revert a; induction t as [|y t IH]; intros a; simpl.
  - split; [left; reflexivity|split; [lia|intros _ []]].
  - destruct (IH (Nat.min a y)) as [[H1|H1] [H2 H3]].
    + rewrite H1. split; [destruct (Nat.min_spec a y) as [[_ ->]|[_ ->]]; auto|].
      split; [lia|]. intros x [<-|Hx]; [lia|]. specialize (H3 x Hx). lia.
    + split; [right; right; exact H1|]. split; [lia|].
      intros x [<-|Hx]; [lia|exact (H3 x Hx)].
Qed.

Lemma fold_max_spec (t : list nat) (a : nat) :
  (fold_left Nat.max t a = a \/ In (fold_left Nat.max t a) t) /\
  (a <= fold_left Nat.max t a)%nat /\ (forall x, In x t -> x <= fold_left Nat.max t a)%nat.
Proof.
  revert a; induction t as [|y t IH]; intros a; simpl.
  - split; [left; reflexivity|split; [lia|intros _ []]].
  - destruct (IH (Nat.max a y)) as [[H1|H1] [H2 H3]].
    + rewrite H1. split; [destruct (Nat.max_spec a y) as [[_ ->]|[_ ->]]; auto|].
      split; [lia|]. intros x [<-|Hx]; [lia|]. specialize (H3 x Hx). lia.
    + split; [right; right; exact H1|]. split; [lia|].
      intros x [<-|Hx]; [lia|exact (H3 x Hx)].
Qed.

Lemma list_min_spec (l : list nat) :
  l <> [] -> In (list_min l) l /\ (forall x, In x l -> list_min l <= x)%nat.
Proof.
  destruct l as [|h t]; [congruence|intros _]. unfold list_min; simpl.
  destruct (fold_min_spec t h) as [[H1|H1] [H2 H3]].
  - split; [left; symmetry; exact H1|]. intros x [<-|Hx]; [lia|exact (H3 x Hx)].
  - split; [right; exact H1|]. intros x [<-|Hx]; [lia|exact (H3 x Hx)].
Qed.

Lemma list_max_spec (l : list nat) :
  l <> [] -> In (list_max l) l /\ (forall x, In x l -> x <= list_max l)%nat.
Proof.
  destruct l as [|h t]; [congruence|intros _]. unfold list_max; simpl.
  destruct (fold_max_spec t h) as [[H1|H1] [H2 H3]].
  - split; [left; symmetry; exact H1|]. intros x [<-|Hx]; [lia|exact (H3 x Hx)].
  - split; [right; exact H1|]. intros x [<-|Hx]; [lia|exact (H3 x Hx)].
Qed.

(** The [rounds] field of the table: for an empty history [min] and [max]
    are [null] and [count] is 0; otherwise [min] and [max] are the smallest
    and largest round of the history and [count] its number of records. *)
Theorem buildFreq_rounds (now : jstr) (draws : list Draw) (fr : Freq) :
  buildFreq now draws = Ok fr ->
  match draws with
  | [] => r_min (rounds fr) = None /\ r_max (rounds fr) = None /\ r_count (rounds fr) = 0%nat
  | _ =>
    r_count (rounds fr) = length draws /\
    (exists lo, r_min (rounds fr) = Some lo /\ In lo (map round draws) /\
                forall d, In d draws -> (lo <= round d)%nat) /\
    (exists hi, r_max (rounds fr) = Some hi /\ In hi (map round draws) /\
                forall d, In d draws -> (round d <= hi)%nat)
  end.
Proof.
  unfold buildFreq. destruct (freq_fold acc0 draws) as [a|e]; [|discriminate].
  simpl. intros [= <-]. simpl.
  destruct draws as [|d0 t] eqn:Hd; [auto|].
  rewrite <- Hd.
  assert (Hne : map round draws <> []) by (rewrite Hd; discriminate).
  destruct (list_min_spec _ Hne) as [Hm1 Hm2]. destruct (list_max_spec _ Hne) as [HM1 HM2].
  split; [reflexivity|split].
  - eexists. split; [reflexivity|]. split; [exact Hm1|].
    intros d Hdin. apply Hm2, in_map, Hdin.
  - eexists. split; [reflexivity|]. split; [exact HM1|].
    intros d Hdin. apply HM2, in_map, Hdin.
Qed.

Lemma buildFreq_rounds_witness :
  exists fr, buildFreq [] tie_draws = Ok fr /\ r_count (rounds fr) = 2%nat.
Proof.
  eexists. split; [reflexivity|].
  exact (proj1 (buildFreq_rounds [] tie_draws _ eq_refl)).
Defined.

(** ** Totals of the count objects *)

(** The sum of the values of a count object. *)
Definition obj_total (o : obj) : nat := fold_right (fun e acc => (snd e + acc)%nat) 0%nat o.

(** How often digit [k] occurs among the primary (resp. bonus) digits of a history. *)
Definition count_all (k : nat) (ds : list Draw) : nat :=
  fold_right (fun d acc => (count_occ Nat.eq_dec (digits (first d)) k + acc)%nat) 0%nat ds.

Definition count_all_bonus (k : nat) (ds : list Draw) : nat :=
  fold_right (fun d acc =>
    (match bonus d with Some b => count_occ Nat.eq_dec (b_digits b) k | None => 0 end + acc)%nat)
    0%nat ds.

Lemma get_above (o : obj) (k : nat) :
  Forall (fun x => k < x)%nat (map fst o) -> get o k = 0%nat.
Proof.
  unfold get. induction o as [|[k0 v0] t IH]; simpl; [reflexivity|].
  intros Hf. inversion Hf as [|? ? Hk Ht]; subst.
  replace (Nat.eqb k k0) with false by (symmetry; apply Nat.eqb_neq; lia).
  exact (IH Ht).
Qed.

Lemma total_inc (o : obj) (k : nat) : good o -> obj_total (inc o k) = S (obj_total o).
Proof.
  unfold inc. induction o as [|[k0 v0] t IH]; intros Hs; [reflexivity|].
  unfold good in Hs; simpl in Hs. apply StronglySorted_inv in Hs as [Ht Hf].
  assert (Hg : get ((k0, v0) :: t) k = if Nat.eqb k k0 then v0 else get t k)
    by (unfold get; simpl; destruct (Nat.eqb k k0); reflexivity).
  rewrite Hg. simpl obj_put.
  case_eq (Nat.eqb k k0); intros H0; simpl.
  - reflexivity.
  - apply Nat.eqb_neq in H0. case_eq (k <? k0)%nat; intros H1; simpl.
    + apply Nat.ltb_lt in H1.
      rewrite get_above; [reflexivity|].
      eapply Forall_impl; [|exact Hf]. simpl; intros; lia.
    + rewrite IH by exact Ht. lia.
Qed.

Lemma obj_total_zeros (l : list nat) : obj_total (map (fun d => (d, 0%nat)) l) = 0%nat.
Proof. induction l as [|x t IH]; simpl; [reflexivity|exact IH]. Qed.

Lemma count_digits_overall (ds : list nat) (pos : list obj) (ov : obj) (idx : nat) pos' ov' :
  count_digits pos ov ds idx = Ok (pos', ov') ->
  (forall k, get ov' k = (get ov k + count_occ Nat.eq_dec ds k)%nat) /\
  (good ov -> good ov' /\ obj_total ov' = (obj_total ov + length ds)%nat).
Proof.
  revert pos ov idx; induction ds as [|x t IH]; intros pos ov idx; simpl.
  - intros [= <- <-]. split; [intros; lia|]. intros Hg; split; [exact Hg|lia].
  - destruct (nth_error pos idx) as [o|]; [|discriminate]. intros Hc.
    destruct (IH _ _ _ Hc) as [Hget Hgood]. split.
    + intros k. rewrite Hget, get_inc.
      destruct (Nat.eq_dec x k) as [->|Hne]; [rewrite Nat.eqb_refl; lia|].
      replace (Nat.eqb k x) with false by (symmetry; apply Nat.eqb_neq; congruence). lia.
    + intros Hg. destruct (Hgood (good_inc ov x Hg)) as [Hg' Ht].
      split; [exact Hg'|]. rewrite Ht, total_inc by exact Hg. lia.
Qed.

(** Sum of the numbers of primary digits of [ds]. *)
Definition digit_total (ds : list Draw) : nat :=
  fold_right (fun d acc => (length (digits (first d)) + acc)%nat) 0%nat ds.

Lemma freq_fold_totals (ds : list Draw) (a a' : Acc) :
  freq_fold a ds = Ok a' -> good (a_group a) -> good (a_overall a) ->
  obj_total (a_group a') = (obj_total (a_group a) + length ds)%nat /\
  obj_total (a_overall a') = (obj_total (a_overall a) + digit_total ds)%nat /\
  (forall k, get (a_overall a') k = (get (a_overall a) k + count_all k ds)%nat) /\
  (forall k, get (a_boverall a') k = (get (a_boverall a) k + count_all_bonus k ds)%nat).
Proof.
  revert a; induction ds as [|d t IH]; intros a; simpl.
  - intros [= <-] _ _. repeat split; intros; lia.
  - destruct (freq_step a d) as [a1|e] eqn:Hs; [|discriminate]. simpl. intros Hf Hg Ho.
    unfold freq_step in Hs.
    destruct (count_digits (a_pos a) (a_overall a) (digits (first d)) 0) as [[pc oc]|e] eqn:Hc;
      [|discriminate].
    simpl in Hs. apply count_digits_overall in Hc as [Hcg Hct].
    destruct (Hct Ho) as [Hog Hot].
    assert (Hrest : a_group a1 = inc (a_group a) (group (first d)) /\ a_overall a1 = oc /\
                    forall k, get (a_boverall a1) k =
                      (get (a_boverall a) k +
                       match bonus d with
                       | Some b => count_occ Nat.eq_dec (b_digits b) k
                       | None => 0 end)%nat).
    { destruct (bonus d) as [b|].
      - destruct (count_digits (a_bpos a) (a_boverall a) (b_digits b) 0) as [[bc boc]|e] eqn:Hb;
          [|discriminate].
        simpl in Hs. injection Hs as <-. simpl. apply count_digits_overall in Hb as [Hbg _].
        split; [reflexivity|split; [reflexivity|exact Hbg]].
      - injection Hs as <-. simpl. split; [reflexivity|split; [reflexivity|]]. intros; lia. }
    destruct Hrest as [Hg1 [Ho1 Hb1]].
    assert (Hgg : good (a_group a1)) by (rewrite Hg1; apply good_inc, Hg).
    assert (Hog1 : good (a_overall a1)) by (rewrite Ho1; exact Hog).
    destruct (IH a1 Hf Hgg Hog1) as [T1 [T2 [T3 T4]]].
    split; [|split; [|split]].
    + rewrite T1, Hg1, total_inc by exact Hg. lia.
    + rewrite T2, Ho1, Hot. lia.
    + intros k. rewrite T3, Ho1, Hcg. lia.
    + intros k. rewrite T4, Hb1. lia.
Qed.

(** [buildFreq] counts every record once in the group table and every digit
    once in the overall tables: the group counts sum to the number of records,
    the overall counts sum to the number of primary digits, and the count of a
    digit in [overall] ([bonus.overall]) is its number of occurrences among the
    primary (bonus) numbers. *)
Theorem buildFreq_totals (now : jstr) (draws : list Draw) (fr : Freq) :
  buildFreq now draws = Ok fr ->
  obj_total (cs_counts (group_stat fr)) = length draws /\
  obj_total (cs_counts (overall fr)) = digit_total draws /\
  (forall k, get (cs_counts (overall fr)) k = count_all k draws) /\
  (forall k, get (cs_counts (bonus_overall fr)) k = count_all_bonus k draws).
Proof.
  unfold buildFreq.
  destruct (freq_fold acc0 draws) as [a|e] eqn:Hf; [|discriminate]. simpl. intros [= <-]. simpl.
  destruct (freq_fold_totals draws acc0 a Hf good_groups0 good_digits0) as [T1 [T2 [T3 T4]]].
  assert (Z1 : obj_total (a_group acc0) = 0%nat) by apply obj_total_zeros.
  assert (Z2 : obj_total (a_overall acc0) = 0%nat) by apply obj_total_zeros.
  assert (Z3 : forall k, get (a_overall acc0) k = 0%nat) by (intros; apply get_zeros).
  assert (Z4 : forall k, get (a_boverall acc0) k = 0%nat) by (intros; apply get_zeros).
  split; [lia|split; [lia|split]].
  - intros k. rewrite T3, Z3. reflexivity.
  - intros k. rewrite T4, Z4. reflexivity.
Qed.

Lemma buildFreq_totals_witness :
  exists fr, buildFreq [] tie_draws = Ok fr /\
    obj_total (cs_counts (group_stat fr)) = length tie_draws.
Proof.
  eexists. split; [reflexivity|].
  exact (proj1 (buildFreq_totals [] tie_draws _ eq_refl)).
Defined.

(** ** How the tickets are drawn from the rankings *)

Lemma traverse_nth {A B} (f : A -> js_result B) (l : list A) (ys : list B) (i : nat) (y : B) :
  traverse f l = Ok ys -> nth_error ys i = Some y ->
  exists x, nth_error l i = Some x /\ f x = Ok y.
Proof.
  revert ys i; induction l as [|x t IH]; intros ys i; simpl.
  - intros [= <-]. destruct i; discriminate.
  - destruct (f x) as [y0|e] eqn:Hx; [|discriminate]. simpl.
    destruct (traverse f t) as [ys0|e] eqn:Ht; [|discriminate]. simpl. intros [= <-].
    destruct i as [|i]; simpl.
    + intros [= <-]. exists x. auto.
    + intros Hi. exact (IH ys0 i eq_refl Hi).
Qed.

Lemma nth_error_seq_eq (s n i x : nat) : nth_error (seq s n) i = Some x -> x = (s + i)%nat.
Proof.
  revert s i; induction n as [|n IH]; intros s i; simpl; [destruct i; discriminate|].
  destruct i as [|i]; simpl; [intros [= <-]; lia|].
  intros H. apply IH in H. lia.
Qed.

Lemma recommend_ticket (fr : Freq) (n : nat) (cycle : num) (ts : list Ticket) (i : nat) (t : Ticket) :
  recommendFromFreq fr n cycle = Ok ts -> nth_error ts i = Some t ->
  (i < n)%nat /\
  ticket_at (map fst (cs_ranked (group_stat fr)))
            (map (fun p => map fst (ps_ranked p)) (positions fr)) (tier_of n) cycle i = Ok t.
Proof.
  unfold recommendFromFreq. destruct (Nat.eqb (r_count (rounds fr)) 0); [discriminate|].
  intros Hr Hi. destruct (traverse_nth _ _ _ _ _ Hr Hi) as [x [Hx Ht]].
  assert (Hn : (i < n)%nat)
    by (rewrite <- (length_seq n 0); apply nth_error_Some; rewrite Hx; discriminate).
  apply nth_error_seq_eq in Hx. simpl in Hx. subst x. auto.
Qed.

Lemma ticket_at_group gr pr tier cycle i t :
  ticket_at gr pr tier cycle i = Ok t ->
  t_group t = js_index gr (js_rem (js_add cycle (js_of_Z (Z.of_nat i))) (js_of_Z (Z.of_nat (length gr)))).
Proof.
  unfold ticket_at. destruct (traverse _ (seq 0 6)); [|discriminate]. simpl.
  intros [= <-]. reflexivity.
Qed.

Lemma in_firstn_nth {A} (l : list A) (c j : nat) (x : A) :
  (j < Nat.min c (length l))%nat -> nth_error l j = Some x -> In x (firstn c l).
Proof.
  intros Hj Hx. rewrite <- (firstn_skipn c l) in Hx.
  rewrite nth_error_app1 in Hx by (rewrite length_firstn; exact Hj).
  eapply nth_error_In. exact Hx.
Qed.

Lemma wf_draw_303 : Forall well_formed [draw_303].
Proof.
  constructor; [|constructor]. unfold well_formed; simpl.
  split; [lia|split; [reflexivity|split; [repeat constructor; lia|]]].
  split; [reflexivity|repeat constructor; lia].
Qed.

(** Each digit of a ticket is taken from the head of the ranking of its
    position: from its first entry for one ticket, its first three for five
    tickets and its first six otherwise ([pickIndex] reduces the index modulo
    1, 3 or 6). *)
Theorem recommend_digit_tier (fr : Freq) (n : nat) (cycle : num) (ts : list Ticket)
    (i : nat) (t : Ticket) (p k : nat) :
  recommendFromFreq fr n cycle = Ok ts -> nth_error ts i = Some t ->
  nth_error (t_digits t) p = Some (Some k) ->
  exists ps, nth_error (positions fr) p = Some ps /\
    In k (firstn (match tier_of n with Top => 1 | TopMix => 3 | Mix => 6 end)%nat
                 (map fst (ps_ranked ps))).
Proof.
  intros Hr Hi Hp. destruct (recommend_ticket _ _ _ _ _ _ Hr Hi) as [_ Ht].
  unfold ticket_at in Ht.
  destruct (traverse _ (seq 0 6)) as [ds|e] eqn:Hd; [|discriminate].
  cbn [bind] in Ht. injection Ht as <-. cbn [t_digits] in Hp.
  destruct (traverse_nth _ _ _ _ _ Hd Hp) as [x [Hx Hf]].
  assert (Hp6 : (p < 6)%nat)
    by (rewrite <- (length_seq 6 0); apply nth_error_Some; rewrite Hx; discriminate).
  apply nth_error_seq_eq in Hx. simpl in Hx. subst x.
  rewrite nth_error_map in Hf.
  destruct (nth_error (positions fr) p) as [ps|]; [|discriminate]. cbn [option_map] in Hf.
  injection Hf as Hk. exists ps. split; [reflexivity|].
  set (r := map fst (ps_ranked ps)) in *.
  destruct (js_index_inv _ _ _ Hk) as [j [Hj [Hjl Hjn]]].
  assert (Hl : (1 <= length r)%nat) by lia.
  apply (in_firstn_nth r _ (Z.to_nat j)); [|exact Hjn].
  exact (pickIndex_span (tier_of n) (S p) _ _ j ltac:(lia) Hl Hj).
Qed.

Lemma recommend_digit_tier_witness :
  exists fr ts t k, buildFreq [] [draw_303] = Ok fr /\ recommendFromFreq fr 5 (js_of_Z 2) = Ok ts /\
    nth_error ts 3 = Some t /\ nth_error (t_digits t) 0 = Some (Some k) /\
    exists ps, nth_error (positions fr) 0 = Some ps /\
      In k (firstn 3 (map fst (ps_ranked ps))).
Proof.
  do 4 eexists. split; [reflexivity|]. split; [reflexivity|]. split; [reflexivity|].
  split; [reflexivity|].
  eapply (recommend_digit_tier _ 5 (js_of_Z 2) _ 3 _ 0 _); reflexivity.
Defined.

Lemma mod5_shift (c : Z) (i j : nat) :
  0 <= c ->
  Z.to_nat ((c + Z.of_nat i) mod 5) = Z.to_nat ((c + Z.of_nat j) mod 5) <->
  (i mod 5 = j mod 5)%nat.
Proof.
  intros Hc.
  rewrite Z2Nat.inj_iff by (apply Z.mod_pos_bound; lia).
  rewrite <- (Nat2Z.inj_iff (i mod 5) (j mod 5)), !Nat2Z.inj_mod.
  change (Z.of_nat 5) with 5.
  pose proof (Z.mod_pos_bound (c + Z.of_nat i) 5). pose proof (Z.mod_pos_bound (c + Z.of_nat j) 5).
  pose proof (Z.mod_pos_bound (Z.of_nat i) 5). pose proof (Z.mod_pos_bound (Z.of_nat j) 5).
  rewrite (Z.mod_eq (c + Z.of_nat i)), (Z.mod_eq (c + Z.of_nat j)),
          (Z.mod_eq (Z.of_nat i)), (Z.mod_eq (Z.of_nat j)) in * by lia.
  split; intros Hx; lia.
Qed.

(** For a history of well-formed records and an integer [cycle >= 0] with
    [cycle + n] at most 2^53, two tickets of one recommendation have the same
    group exactly when their indices agree modulo 5: the five tickets of a
    batch of five all differ in group, and a batch of ten repeats the same
    five groups in the same order. *)
Theorem recommend_group_cycle (now : jstr) (draws : list Draw) (fr : Freq) (n : nat)
    (c : Z) (ts : list Ticket) (i j : nat) (ti tj : Ticket) :
  Forall well_formed draws -> buildFreq now draws = Ok fr ->
  0 <= c -> c + Z.of_nat n <= 2 ^ 53 ->
  recommendFromFreq fr n (js_of_Z c) = Ok ts ->
  nth_error ts i = Some ti -> nth_error ts j = Some tj ->
  (t_group ti = t_group tj <-> (i mod 5 = j mod 5)%nat).
Proof.
  intros Hw Hb Hc Hcn Hr Hi Hj.
  pose proof (group_rank_perm _ _ _ Hw Hb) as Hp.
  set (gr := map fst (cs_ranked (group_stat fr))) in *.
  assert (Hl : length gr = 5%nat) by (rewrite (Permutation_length Hp); reflexivity).
  assert (Hnd : NoDup gr) by (eapply Permutation_NoDup; [symmetry; exact Hp|apply seq_NoDup]).
  assert (Hg : forall x t, nth_error ts x = Some t ->
            t_group t = nth_error gr (Z.to_nat ((c + Z.of_nat x) mod 5))).
  { intros x t Hx. destruct (recommend_ticket _ _ _ _ _ _ Hr Hx) as [Hxn Ht].
    rewrite (ticket_at_group _ _ _ _ _ _ Ht).
    fold gr. rewrite Hl. change (Z.of_nat 5) with 5.
    pose proof (Z.mod_pos_bound (c + Z.of_nat x) 5 ltac:(lia)).
    rewrite js_add_Z, js_rem_Z by lia. unfold js_index. rewrite js_array_index_Z by lia.
    rewrite Hl. change (Z.of_nat 5) with 5.
    replace ((c + Z.of_nat x) mod 5 <? 5) with true by (symmetry; apply Z.ltb_lt; lia).
    reflexivity. }
  rewrite (Hg _ _ Hi), (Hg _ _ Hj), <- mod5_shift by exact Hc.
  split; [|intros ->; reflexivity].
  intros He. eapply (proj1 (NoDup_nth_error gr) Hnd); [|exact He].
  rewrite Hl. apply Nat2Z.inj_lt. rewrite Z2Nat.id by (apply Z.mod_pos_bound; lia).
  apply Z.mod_pos_bound. lia.
Qed.

Lemma recommend_group_cycle_witness :
  exists fr ts ti tj, buildFreq [] [draw_303] = Ok fr /\ recommendFromFreq fr 10 (js_of_Z 4) = Ok ts /\
    nth_error ts 2 = Some ti /\ nth_error ts 7 = Some tj /\ t_group ti = t_group tj.
Proof.
  do 4 eexists. split; [reflexivity|]. split; [reflexivity|].
  split; [reflexivity|]. split; [reflexivity|].
  eapply (recommend_group_cycle [] [draw_303] _ 10 4 _ 2 7);
    [exact wf_draw_303|reflexivity|lia|lia|reflexivity|reflexivity|reflexivity|reflexivity].
Defined.

(** ** What the extractor's matches capture *)

(** The matches [rmatch] can return: a greedy atom takes any length between
    its minimum and its longest run, the backtracking only choosing which. *)
Inductive rm (s : jstr) : list ritem -> nat -> rstate -> nat -> rstate -> Prop :=
| rm_nil p st : rm s [] p st p st
| rm_atom cls mn mx rest p st k e st' :
    (mn <= k)%nat -> (k <= run_len cls (skipn p s) mx)%nat ->
    rm s rest (p + k) st e st' -> rm s (RAtom cls mn mx :: rest) p st e st'
| rm_open g rest p st e st' :
    rm s rest p {| opened := (g, p) :: opened st; caps := caps st |} e st' ->
    rm s (ROpen g :: rest) p st e st'
| rm_close g rest p st p0 e st' :
    assoc_nat g (opened st) = Some p0 ->
    rm s rest p {| opened := opened st; caps := (g, (p0, p)) :: caps st |} e st' ->
    rm s (RClose g :: rest) p st e st'
| rm_begin rest p st e st' : p = 0%nat -> rm s rest p st e st' -> rm s (RBegin :: rest) p st e st'
| rm_end rest p st e st' : p = length s -> rm s rest p st e st' -> rm s (REnd :: rest) p st e st'.

Lemma rmatch_sound (its : list ritem) (s : jstr) :
  forall p st e st', rmatch its s p st = Some (e, st') -> rm s its p st e st'.
Proof.
  induction its as [|it rest IH]; intros p st e st'; simpl.
  - intros [= <- <-]. constructor.
  - destruct it as [cls mn mx|g|g| |].
    + intros H.
      assert (Hgo : forall k, (k <= run_len cls (skipn p s) mx)%nat ->
        (fix go (k : nat) : option (nat * rstate) :=
           if (k <? mn)%nat then None else
           match rmatch rest s (p + k) st with
           | Some r => Some r
           | None => match k with O => None | S k' => go k' end
           end) k = Some (e, st') -> rm s (RAtom cls mn mx :: rest) p st e st').
      { induction k as [|k IHk]; intros Hk Hg.
        - destruct (0 <? mn)%nat eqn:Hm; [discriminate|].
          destruct (rmatch rest s (p + 0) st) as [r|] eqn:Hr; [|discriminate].
          injection Hg as ->. apply Nat.ltb_ge in Hm.
          apply rm_atom with (k := 0%nat); [exact Hm|exact Hk|apply IH, Hr].
        - destruct (S k <? mn)%nat eqn:Hm; [discriminate|].
          destruct (rmatch rest s (p + S k) st) as [r|] eqn:Hr.
          + injection Hg as ->. apply Nat.ltb_ge in Hm.
            apply rm_atom with (k := S k); [exact Hm|exact Hk|apply IH, Hr].
          + apply IHk; [lia|exact Hg]. }
      exact (Hgo _ (le_n _) H).
    + intros H. constructor. apply IH, H.
    + destruct (assoc_nat g (opened st)) as [p0|] eqn:Ho; [|discriminate].
      intros H. eapply rm_close; [exact Ho|]. apply IH, H.
    + destruct (Nat.eqb p 0) eqn:Hp; [|discriminate]. apply Nat.eqb_eq in Hp.
      intros H. constructor; [exact Hp|]. apply IH, H.
    + destruct (Nat.eqb p (length s)) eqn:Hp; [|discriminate]. apply Nat.eqb_eq in Hp.
      intros H. constructor; [exact Hp|]. apply IH, H.
Qed.

Lemma rm_app (s : jstr) (l1 l2 : list ritem) :
  forall p st e st', rm s (l1 ++ l2) p st e st' ->
  exists q stq, rm s l1 p st q stq /\ rm s l2 q stq e st'.
Proof.
  induction l1 as [|it l1 IH]; intros p st e st' H; simpl in H.
  - exists p, st. split; [constructor|exact H].
  - inversion H; subst;
      match goal with Hr : rm _ (app _ _) _ _ _ _ |- _ =>
        destruct (IH _ _ _ _ Hr) as [q [stq [Hq1 Hq2]]];
        exists q, stq; split; [econstructor; first [eassumption|reflexivity]|exact Hq2]
      end.
Qed.

(** Whether [its] closes group [g]. *)
Definition closes (g : nat) (its : list ritem) : bool :=
  existsb (fun it => match it with RClose g' => Nat.eqb g g' | _ => false end) its.

Lemma rm_caps_keep (s : jstr) (g : nat) its p st e st' :
  rm s its p st e st' -> closes g its = false -> assoc_nat g (caps st') = assoc_nat g (caps st).
Proof.
  induction 1; simpl; intros Hc; try (apply IHrm; exact Hc); try reflexivity.
  apply orb_false_iff in Hc as [H1 H2]. rewrite IHrm by exact H2. simpl.
  rewrite H1. reflexivity.
Qed.

Lemma rm_grp_atom (s : jstr) g cls mn mx p st e st' :
  rm s (grp g [RAtom cls mn mx]) p st e st' ->
  assoc_nat g (caps st') = Some (p, e) /\ (mn <= e - p)%nat /\ (p <= e)%nat /\
  (e - p <= run_len cls (skipn p s) mx)%nat.
Proof.
  unfold grp. simpl. intros H.
  inversion H as [| | ? ? ? ? ? ? H1 | | |]; subst.
  inversion H1 as [|? ? ? ? ? ? k ? ? Hmn Hk H2| | | |]; subst.
  inversion H2 as [| | |? ? ? ? p0 ? ? Ho H3| |]; subst.
  inversion H3; subst. simpl in Ho. rewrite Nat.eqb_refl in Ho. injection Ho as <-.
  simpl. rewrite Nat.eqb_refl. split; [reflexivity|]. lia.
Qed.

Lemma rm_capture (s : jstr) pre g cls mn mx post p st e st' :
  rm s (pre ++ grp g [RAtom cls mn mx] ++ post) p st e st' -> closes g post = false ->
  exists a b, assoc_nat g (caps st') = Some (a, b) /\ (mn <= b - a)%nat /\ (a <= b)%nat /\
    (b - a <= run_len cls (skipn a s) mx)%nat.
Proof.
  intros H Hc.
  destruct (rm_app _ _ _ _ _ _ _ H) as [q [stq [_ H2]]].
  destruct (rm_app _ _ _ _ _ _ _ H2) as [q' [stq' [H3 H4]]].
  destruct (rm_grp_atom _ _ _ _ _ _ _ _ _ H3) as [Ha Hr].
  exists q, q'. rewrite (rm_caps_keep _ _ _ _ _ _ _ H4 Hc). auto.
Qed.

Lemma run_len_prefix (cls : Z -> bool) (s : jstr) (mx : option nat) (k : nat) :
  (k <= run_len cls s mx)%nat ->
  length (firstn k s) = k /\ Forall (fun c => cls c = true) (firstn k s) /\
  (forall m, mx = Some m -> (k <= m)%nat).
Proof.
  revert mx k; induction s as [|c t IH]; intros mx k Hk.
  - assert (k = 0%nat) by (destruct mx as [[|m]|]; simpl in Hk; lia). subst k.
    split; [reflexivity|split; [constructor|intros; lia]].
  - destruct mx as [[|m]|]; simpl in Hk.
    + assert (k = 0%nat) by lia. subst k.
      split; [reflexivity|split; [constructor|intros; lia]].
    + destruct (cls c) eqn:Hc.
      * destruct k as [|k]; [split; [reflexivity|split; [constructor|intros; lia]]|].
        destruct (IH (Some m) k ltac:(lia)) as [H1 [H2 H3]].
        simpl. split; [lia|split; [constructor; auto|]].
        intros m' [= <-]. specialize (H3 m eq_refl). lia.
      * assert (k = 0%nat) by lia. subst k.
        split; [reflexivity|split; [constructor|intros; lia]].
    + destruct (cls c) eqn:Hc.
      * destruct k as [|k]; [split; [reflexivity|split; [constructor|intros; discriminate]]|].
        destruct (IH None k ltac:(lia)) as [H1 [H2 H3]].
        simpl. split; [lia|split; [constructor; auto|]]. intros; discriminate.
      * assert (k = 0%nat) by lia. subst k.
        split; [reflexivity|split; [constructor|intros; discriminate]].
Qed.

Lemma exec_from_sound (its : list ritem) (s : jstr) (p fuel : nat) (m : rmatch_result) :
  exec_from its s p fuel = Some m ->
  exists st, rmatch its s (m_index m) rstate0 = Some (m_end m, st) /\ m_caps m = caps st.
Proof.
  revert p; induction fuel as [|f IH]; intros p; simpl; [discriminate|].
  destruct (length s <? p)%nat; [discriminate|].
  destruct (rmatch its s p rstate0) as [[e st]|] eqn:Hr.
  - intros [= <-]. exists st. simpl. auto.
  - destruct (p <? length s)%nat; [apply IH|discriminate].
Qed.

Lemma matchAll_sound (its : list ritem) (s : jstr) (m : rmatch_result) :
  In m (matchAll its s) ->
  exists st, rm s its (m_index m) rstate0 (m_end m) st /\ m_caps m = caps st.
Proof.
  unfold matchAll. generalize 0%nat as last. generalize (S (length s)) as fuel.
  induction fuel as [|f IH]; intros last; [simpl; intros []|].
  cbn [match_all_from].
  destruct (exec_from its s last (S (length s))) as [m0|] eqn:He; [|simpl; intros []].
  intros [<-|Hin]; [|exact (IH _ Hin)].
  destruct (exec_from_sound _ _ _ _ _ He) as [st [Hr Hc]].
  exists st. split; [apply rmatch_sound, Hr|exact Hc].
Qed.

(** A one-character group of a pattern run by [matchAll] captures one
    character of its class. *)
Lemma capture_single (its pre post : list ritem) (g : nat) (cls : Z -> bool) (s : jstr)
    (m : rmatch_result) :
  In m (matchAll its s) -> its = pre ++ grp g [RAtom cls 1 (Some 1%nat)] ++ post ->
  closes g post = false ->
  exists c, capture s m g = [c] /\ cls c = true.
Proof.
  intros Hm -> Hc. destruct (matchAll_sound _ _ _ Hm) as [st [Hr Hcaps]].
  destruct (rm_capture _ _ _ _ _ _ _ _ _ _ _ Hr Hc) as [a [b [Ha [H1 [H2 H3]]]]].
  destruct (run_len_prefix _ _ _ _ H3) as [Hl [Hf Hb]].
  specialize (Hb 1%nat eq_refl).
  unfold capture. rewrite Hcaps, Ha.
  replace (b - a)%nat with 1%nat in * by lia.
  destruct (firstn 1 (skipn a s)) as [|c [|c' t]]; simpl in Hl; try lia.
  exists c. split; [reflexivity|]. inversion Hf; assumption.
Qed.

Lemma js_Number_single (c : Z) : js_Number_digits [c] = Z.to_nat (c - 48).
Proof. reflexivity. Qed.

Lemma reFirst_split (g : nat) :
  (4 <= g <= 9)%nat ->
  reFirst = firstn (4 * g + 4) reFirst ++ grp g [dig1] ++ skipn (4 * g + 7) reFirst /\
  closes g (skipn (4 * g + 7) reFirst) = false.
Proof.
  intros Hg.
  assert (g = 4 \/ g = 5 \/ g = 6 \/ g = 7 \/ g = 8 \/ g = 9)%nat as Hc by lia.
  repeat destruct Hc as [->|Hc]; try (subst g); split; reflexivity.
Qed.

Lemma reFirst_split_group :
  reFirst = firstn 16 reFirst ++ grp 3 [RAtom is_1to5 1 (Some 1%nat)] ++ skipn 19 reFirst /\
  closes 3 (skipn 19 reFirst) = false.
Proof. split; reflexivity. Qed.

Lemma reBonus_split (g : nat) :
  (1 <= g <= 6)%nat ->
  reBonus = firstn (4 * g + 3) reBonus ++ grp g [dig1] ++ skipn (4 * g + 6) reBonus /\
  closes g (skipn (4 * g + 6) reBonus) = false.
Proof.
  intros Hg.
  assert (g = 1 \/ g = 2 \/ g = 3 \/ g = 4 \/ g = 5 \/ g = 6)%nat as Hc by lia.
  repeat destruct Hc as [->|Hc]; try (subst g); split; reflexivity.
Qed.

Lemma cap_num_digit (s : jstr) (m : rmatch_result) (g : nat) (c : Z) :
  capture s m g = [c] -> is_digit c = true -> (cap_num s m g <= 9)%nat.
Proof.
  intros Hc Hd. unfold cap_num. rewrite Hc, js_Number_single.
  unfold is_digit in Hd. apply andb_true_iff in Hd as [H1 H2].
  apply Z.leb_le in H1. apply Z.leb_le in H2. lia.
Qed.

Lemma first_match_ok (text : jstr) (m : rmatch_result) :
  In m (matchAll reFirst text) ->
  (1 <= f_group (to_first text m) <= 5)%nat /\
  length (f_digits (to_first text m)) = 6%nat /\
  Forall (fun x => x <= 9)%nat (f_digits (to_first text m)).
Proof.
  intros Hm. split; [|split; [reflexivity|]].
  - destruct reFirst_split_group as [He Hc].
    destruct (capture_single _ _ _ _ _ _ _ Hm He Hc) as [c [Hcap Hcls]].
    simpl. unfold cap_num. rewrite Hcap, js_Number_single.
    unfold is_1to5 in Hcls. apply andb_true_iff in Hcls as [H1 H2].
    apply Z.leb_le in H1. apply Z.leb_le in H2. lia.
  - change (f_digits (to_first text m)) with (map (cap_num text m) [4; 5; 6; 7; 8; 9]%nat).
    apply Forall_forall. intros x Hx. apply in_map_iff in Hx as [g [<- Hg]].
    assert (Hr : (4 <= g <= 9)%nat) by (simpl in Hg; lia).
    destruct (reFirst_split g Hr) as [He Hc].
    destruct (capture_single _ _ _ _ _ _ _ Hm He Hc) as [c [Hcap Hcls]].
    exact (cap_num_digit _ _ _ _ Hcap Hcls).
Qed.

Lemma bonus_match_ok (text : jstr) (m : rmatch_result) :
  In m (matchAll reBonus text) ->
  length (bm_digits (to_bonus text m)) = 6%nat /\
  Forall (fun x => x <= 9)%nat (bm_digits (to_bonus text m)).
Proof.
  intros Hm. split; [reflexivity|].
  change (bm_digits (to_bonus text m)) with (map (cap_num text m) [1; 2; 3; 4; 5; 6]%nat).
  apply Forall_forall. intros x Hx. apply in_map_iff in Hx as [g [<- Hg]].
  assert (Hr : (1 <= g <= 6)%nat) by (simpl in Hg; lia).
  destruct (reBonus_split g Hr) as [He Hc].
  destruct (capture_single _ _ _ _ _ _ _ Hm He Hc) as [c [Hcap Hcls]].
  exact (cap_num_digit _ _ _ _ Hcap Hcls).
Qed.

Lemma dedup_sort_in (l : list Draw) (d : Draw) : In d (dedup_sort l) -> In d l.
Proof.
  intros Hd. change (dedup_sort l) with (merge l []) in Hd.
  apply (proj1 (merge_char l [])) in Hd. rewrite app_nil_r in Hd.
  exact (proj2 (last_with_round _ _ _ Hd)).
Qed.

Lemma assoc_loop_in (fs : list FirstMatch) (bms : list BonusMatch) (d : Draw) :
  In d (assoc_loop fs bms) ->
  exists f, In f fs /\ (d = mk_draw f None \/ exists bm, In bm bms /\ d = mk_draw f (Some (bonus_of bm))).
Proof.
  destruct (assoc_from_scan bms fs 0) as [js [_ [_ He]]].
  unfold assoc_loop. rewrite He. intros Hd.
  apply in_map_iff in Hd as [[f j] [<- Hin]]. simpl.
  exists f. split; [exact (in_combine_l _ _ _ _ Hin)|].
  unfold with_bonus. destruct j as [i|]; [|left; reflexivity].
  destruct (nth_error bms i) as [bm|] eqn:Hb; simpl; [|left; reflexivity].
  right. exists bm. split; [exact (nth_error_In _ _ Hb)|reflexivity].
Qed.

(** Every record the extractor returns is well formed: its group is one of
    1..5, and its six primary digits and, when a bonus line is attached, its
    six bonus digits are each one of 0..9, whatever the text. *)
Theorem extract_well_formed (text : jstr) (ds : list Draw) :
  extractDraws text = Ok ds -> Forall well_formed ds.
Proof.
  unfold extractDraws.
  destruct (map (to_first text) (matchAll reFirst text)) as [|f0 fs0] eqn:Hfm; [discriminate|].
  rewrite <- Hfm. intros [= <-].
  apply Forall_forall. intros d Hd.
  apply dedup_sort_in, assoc_loop_in in Hd as [f [Hf Hb]].
  apply in_map_iff in Hf as [m [<- Hm]].
  destruct (first_match_ok _ _ Hm) as [Hg [Hl Hk]].
  destruct Hb as [->|[bm [Hbm ->]]];
    unfold well_formed, mk_draw; simpl; split; [exact Hg| |exact Hg|];
    split; [exact Hl| |exact Hl|]; split; [exact Hk| |exact Hk|]; [exact I|].
  apply in_map_iff in Hbm as [mb [<- Hmb]].
  exact (bonus_match_ok _ _ Hmb).
Qed.

Lemma extract_well_formed_witness :
  extractDraws scenario_text = Ok [draw_303] /\ Forall well_formed [draw_303].
Proof.
  assert (H : extractDraws scenario_text = Ok [draw_303]) by (vm_compute; reflexivity).
  split; [exact H|]. exact (extract_well_formed scenario_text _ H).
Defined.

(** ** The update run end to end *)







(** ** [ymdDotToIso] *)

(** The string with each "." replaced by "-". *)
Definition dots_to_dashes (s : jstr) : jstr := map (fun c => if c =? 46 then 45 else c) s.

(** "dddd.dd.dd" with ASCII digits. *)
Definition ymd_shape (s : jstr) : bool :=
  match s with
  | [y1; y2; y3; y4; p; m1; m2; q; a1; a2] =>
    forallb is_digit [y1; y2; y3; y4; m1; m2; a1; a2] && (p =? 46) && (q =? 46)
  | _ => false
  end.

Lemma is_digit_not_dot (c : Z) : is_digit c = true -> (c =? 46) = false.
Proof.
  unfold is_digit. intros H. apply andb_true_iff in H as [H1 H2].
  apply Z.leb_le in H1. apply Z.eqb_neq. lia.
Qed.

Lemma ymd_complete (s : jstr) : ymd_shape s = true -> ymdDotToIso s = Some (dots_to_dashes s).
Proof.
  intros Hs.
  do 10 (destruct s as [|?c s]; [discriminate|]). destruct s; [|discriminate].
  simpl in Hs. repeat rewrite andb_true_iff in Hs.
  repeat match goal with H : _ /\ _ |- _ => destruct H end.
  repeat match goal with H : (?x =? 46) = true |- _ => apply Z.eqb_eq in H; subst x end.
  unfold ymdDotToIso, js_match. simpl.
  repeat (simpl; match goal with H : is_digit ?c = true |- context [is_digit ?c] => rewrite H end).
  simpl.
  unfold dots_to_dashes, capture. simpl.
  rewrite !is_digit_not_dot by assumption. reflexivity.
Qed.

Lemma run_len_le (cls : Z -> bool) (s : jstr) (n : nat) : (run_len cls s (Some n) <= n)%nat.
Proof.
  revert n; induction s as [|c t IH]; intros [|n]; simpl; try lia.
  destruct (cls c); [specialize (IH n); lia|lia].
Qed.

Lemma ymd_sound (s r : jstr) : ymdDotToIso s = Some r -> ymd_shape s = true /\ r = dots_to_dashes s.
Proof.
  unfold ymdDotToIso, js_match.
  destruct (exec_from reYmd s 0 (S (length s))) as [m|] eqn:Hx; [|discriminate]. intros [= <-].
  destruct (exec_from_sound _ _ _ _ _ Hx) as [st [Hr Hc]]. apply rmatch_sound in Hr.
  clear Hx.
  cbv [reYmd grp lit app] in Hr.
  repeat match goal with H : rm _ (_ :: _) _ _ _ _ |- _ => inversion H; subst; clear H end.
  repeat match goal with H : rm _ [] _ _ _ _ |- _ => inversion H; subst; clear H end.
  simpl in *.
  repeat match goal with H : Some _ = Some _ |- _ => injection H as H end.
  subst.
  repeat match goal with H : (?k <= run_len ?c ?s (Some ?n))%nat |- _ =>
    assert (k <= n)%nat by exact (Nat.le_trans _ _ _ H (run_len_le c s n)); revert H end.
  intros.
  repeat match goal with H : (?a <= ?k)%nat, H' : (?k <= ?a)%nat |- _ =>
    is_var k; assert (k = a) by lia; subst k end.
  unfold capture. rewrite Hc. rewrite H0 in *. simpl in *. clear Hc H H0.
  do 10 (destruct s as [|?c s]; [simpl in H1; lia|]). destruct s; [|simpl in H1; lia].
  cbn [skipn run_len option_map pred] in *.
  repeat match goal with H : context [if ?b then _ else _] |- _ =>
    destruct b eqn:?; cbn [skipn run_len option_map pred] in H; try lia end.
  repeat match goal with H : (46 =? ?c) = true |- _ =>
    apply Z.eqb_eq in H; subst c end.
  unfold ymd_shape, dots_to_dashes. simpl.
  repeat match goal with H : is_digit ?c = true |- context [is_digit ?c] => rewrite H end.
  rewrite !is_digit_not_dot by assumption. split; reflexivity.
Qed.

(** [ymdDotToIso] accepts exactly the strings of the form "dddd.dd.dd" (four,
    two and two ASCII digits separated by dots, nothing before or after), and
    returns such a string with its two dots turned into dashes. *)
Theorem ymdDotToIso_spec (s r : jstr) :
  ymdDotToIso s = Some r <-> ymd_shape s = true /\ r = dots_to_dashes s.
Proof.
  split; [apply ymd_sound|]. intros [Hs ->]. exact (ymd_complete s Hs).
Qed.

(** ** [third.last5Top] *)

Lemma NoDup_firstn {A} (n : nat) (l : list A) : NoDup l -> NoDup (firstn n l).
Proof.
  intros H. rewrite <- (firstn_skipn n l) in H. exact (NoDup_app_remove_r _ _ H).
Qed.

Lemma in_firstn {A} (n : nat) (l : list A) (x : A) : In x (firstn n l) -> In x l.
Proof.
  intros H. rewrite <- (firstn_skipn n l). apply in_or_app. left. exact H.
Qed.

(** [last5Top] lists at most 20 suffixes, as many as there are distinct ones
    up to 20, each once, each with the number of records whose primary number
    ends with it. *)
Theorem last5Top_counts (now : jstr) (draws : list Draw) (fr : Freq) :
  buildFreq now draws = Ok fr ->
  length (last5Top fr) = Nat.min 20 (length (first_seen (suffix_keys draws))) /\
  NoDup (map fst (last5Top fr)) /\
  (forall k c, In (k, c) (last5Top fr) ->
     In k (suffix_keys draws) /\ c = count_key k (suffix_keys draws)).
Proof.
  unfold buildFreq. destruct (freq_fold acc0 draws) as [a|e] eqn:Hf; [|discriminate].
  simpl. intros [= <-]. simpl.
  pose proof (freq_fold_last5 draws acc0 a [] Hf eq_refl) as Hl. simpl in Hl.
  unfold top_last5. rewrite Hl.
  set (ks := suffix_keys draws).
  pose proof (sort_by_perm last5_cmp (suffix_tally ks)) as Hp.
  split; [|split].
  - rewrite length_firstn, <- (Permutation_length Hp). unfold suffix_tally.
    rewrite length_map. reflexivity.
  - rewrite <- firstn_map. apply NoDup_firstn.
    eapply Permutation_NoDup; [apply Permutation_map; exact Hp|].
    unfold suffix_tally. rewrite map_map. simpl. rewrite map_id. apply first_seen_NoDup.
  - intros k c Hin. apply in_firstn in Hin.
    apply (Permutation_in _ (Permutation_sym Hp)) in Hin.
    unfold suffix_tally in Hin. apply in_map_iff in Hin as [k' [[= <- <-] Hk]].
    split; [apply first_seen_In, Hk|reflexivity].
Qed.

Lemma last5Top_counts_witness :
  exists fr, buildFreq [] tie_draws = Ok fr /\ length (last5Top fr) = 2%nat.
Proof.
  eexists. split; [reflexivity|].
  rewrite (proj1 (last5Top_counts [] tie_draws _ eq_refl)). reflexivity.
Defined.

Lemma rm_split3 (s : jstr) pre mid post g p st e st' :
  rm s (pre ++ mid ++ post) p st e st' -> closes g post = false ->
  exists q stq q' stq', rm s mid q stq q' stq' /\ assoc_nat g (caps st') = assoc_nat g (caps stq').
Proof.
  intros H Hc.
  destruct (rm_app _ _ _ _ _ _ _ H) as [q [stq [_ H2]]].
  destruct (rm_app _ _ _ _ _ _ _ H2) as [q' [stq' [H3 H4]]].
  exists q, stq, q', stq'. split; [exact H3|exact (rm_caps_keep _ _ _ _ _ _ _ H4 Hc)].
Qed.

(** The body of group 2 of [reFirst]: [\d{4}\.\d{2}\.\d{2}]. *)
Definition date_body : list ritem :=
  [RAtom is_digit 4 (Some 4%nat); lit 46; RAtom is_digit 2 (Some 2%nat);
   lit 46; RAtom is_digit 2 (Some 2%nat)].

Lemma rm_date_group (s : jstr) q stq q' stq' :
  rm s (grp 2 date_body) q stq q' stq' ->
  assoc_nat 2 (caps stq') = Some (q, q') /\ ymd_shape (firstn (q' - q) (skipn q s)) = true.
Proof.
  intros Hr. cbv [date_body grp lit app] in Hr.
  repeat match goal with H : rm _ (_ :: _) _ _ _ _ |- _ => inversion H; subst; clear H end.
  repeat match goal with H : rm _ [] _ _ _ _ |- _ => inversion H; subst; clear H end.
  simpl in *.
  repeat match goal with H : Some _ = Some _ |- _ => injection H as H end.
  subst.
  repeat match goal with H : (?k <= run_len ?c ?s (Some ?n))%nat |- _ =>
    assert (k <= n)%nat by exact (Nat.le_trans _ _ _ H (run_len_le c s n)); revert H end.
  intros.
  repeat match goal with H : (?a <= ?k)%nat, H' : (?k <= ?a)%nat |- _ =>
    is_var k; assert (k = a) by lia; subst k end.
  split; [reflexivity|].
  replace (p0 + 4 + 1 + 2 + 1 + 2 - p0)%nat with 10%nat by lia.
  replace (p0 + 4 + 1 + 2 + 1)%nat with (p0 + 8)%nat in * by lia.
  replace (p0 + 4 + 1 + 2)%nat with (p0 + 7)%nat in * by lia.
  replace (p0 + 4 + 1)%nat with (p0 + 5)%nat in * by lia.
  assert (Hs : forall n, skipn (p0 + n) s = skipn n (skipn p0 s))
    by (intros n; rewrite skipn_skipn; f_equal; lia).
  rewrite !Hs in *. generalize dependent (skipn p0 s). intros t. intros.
  do 10 (destruct t as [|?c t]; [cbn [skipn run_len option_map pred] in *;
    repeat match goal with H : context [if ?b then _ else _] |- _ =>
      destruct b eqn:?; cbn [skipn run_len option_map pred] in H; try lia end; lia|]).
  cbn [skipn run_len option_map pred] in *.
  repeat match goal with H : context [if ?b then _ else _] |- _ =>
    destruct b eqn:?; cbn [skipn run_len option_map pred] in H; try lia end.
  repeat match goal with H : (46 =? ?c) = true |- _ =>
    apply Z.eqb_eq in H; subst c end.
  unfold ymd_shape. simpl.
  repeat match goal with H : is_digit ?c = true |- context [is_digit ?c] => rewrite H end.
  reflexivity.
Qed.

Lemma reFirst_split_date :
  reFirst = firstn 5 reFirst ++ grp 2 date_body ++ skipn 12 reFirst /\
  closes 2 (skipn 12 reFirst) = false.
Proof. split; reflexivity. Qed.

Lemma first_match_date (text : jstr) (m : rmatch_result) :
  In m (matchAll reFirst text) ->
  exists a b, assoc_nat 2 (m_caps m) = Some (a, b) /\ ymd_shape (firstn (b - a) (skipn a text)) = true.
Proof.
  intros Hm. destruct (matchAll_sound _ _ _ Hm) as [st [Hr Hcaps]].
  destruct reFirst_split_date as [He Hc]. rewrite He in Hr.
  destruct (rm_split3 _ _ _ _ _ _ _ _ _ Hr Hc) as [q [stq [q' [stq' [Hd Ha]]]]].
  destruct (rm_date_group _ _ _ _ _ Hd) as [Hq Hs].
  exists q, q'. rewrite Hcaps, Ha, Hq. auto.
Qed.

(** Every record the extractor returns carries a date, the one of the
    primary match it was built from: its round is that match's group 1, and
    the date token captured by the match's group 2, the characters [a..b) of
    the text, has the shape "dddd.dd.dd", so [ymdDotToIso] turns it into
    "dddd-dd-dd" and never yields [null]. *)
Theorem extract_dates (text : jstr) (ds : list Draw) :
  extractDraws text = Ok ds ->
  forall d, In d ds -> exists m a b,
    In m (matchAll reFirst text) /\ assoc_nat 2 (m_caps m) = Some (a, b) /\
    round d = cap_num text m 1 /\
    ymd_shape (firstn (b - a) (skipn a text)) = true /\
    date d = Some (dots_to_dashes (firstn (b - a) (skipn a text))).
Proof.
  unfold extractDraws.
  destruct (map (to_first text) (matchAll reFirst text)) as [|f0 fs0] eqn:Hfm; [discriminate|].
  rewrite <- Hfm. intros [= <-] d Hd.
  apply dedup_sort_in, assoc_loop_in in Hd as [f [Hf Hb]].
  apply in_map_iff in Hf as [m [<- Hm]].
  destruct (first_match_date _ _ Hm) as [a [b [Ha Hs]]].
  assert (Hcap : f_dateDot (to_first text m) = firstn (b - a) (skipn a text))
    by (cbn [to_first f_dateDot]; unfold capture; rewrite Ha; reflexivity).
  exists m, a, b. split; [exact Hm|split; [exact Ha|split; [|split; [exact Hs|]]]];
    destruct Hb as [->|[bm [_ ->]]]; cbn [mk_draw round date to_first f_round]; try reflexivity;
    rewrite Hcap; exact (ymd_complete _ Hs).
Qed.

Lemma extract_dates_witness :
  extractDraws scenario_text = Ok [draw_303] /\
  exists m a b,
    In m (matchAll reFirst scenario_text) /\ assoc_nat 2 (m_caps m) = Some (a, b) /\
    round draw_303 = cap_num scenario_text m 1 /\
    ymd_shape (firstn (b - a) (skipn a scenario_text)) = true /\
    date draw_303 = Some (dots_to_dashes (firstn (b - a) (skipn a scenario_text))).
Proof.
  assert (H : extractDraws scenario_text = Ok [draw_303]) by (vm_compute; reflexivity).
  split; [exact H|]. exact (extract_dates scenario_text _ H draw_303 (or_introl eq_refl)).
Defined.

(** ** [formatTicket] (lines 697-699) *)

(** A template literal [${x}] of a number or [undefined]. *)
Definition js_String_opt (o : option nat) : jstr :=
  match o with Some n => js_String_nat n | None => codes "undefined" end.

(** [digits.join("")]: [join] writes [undefined] as the empty string. *)
Definition join_digits (ds : list (option nat)) : jstr :=
  concat (map (fun o => match o with Some n => js_String_nat n | None => [] end) ds).

(** [`${t.group}조 ${t.digits.join("")}`] *)
Definition formatTicket (t : Ticket) : jstr :=
  js_String_opt (t_group t) ++ [u_jo; 32] ++ join_digits (t_digits t).

Lemma js_String_digit (n : nat) : (n <= 9)%nat -> js_String_nat n = [48 + Z.of_nat n].
Proof.
  intros Hn. unfold js_String_nat. simpl.
  replace (n <? 10)%nat with true by (symmetry; apply Nat.ltb_lt; lia). reflexivity.
Qed.

Lemma ticket_ok_shape (t : Ticket) :
  ticket_ok t ->
  exists g k1 k2 k3 k4 k5 k6,
    t_group t = Some g /\ (1 <= g <= 5)%nat /\
    t_digits t = [Some k1; Some k2; Some k3; Some k4; Some k5; Some k6] /\
    Forall (fun k => k <= 9)%nat [k1; k2; k3; k4; k5; k6].
Proof.
  intros [[g [Hg Hr]] [Hl Hd]].
  destruct (t_digits t) as [|o1 [|o2 [|o3 [|o4 [|o5 [|o6 [|o7 l]]]]]]]; simpl in Hl; try lia.
  inversion Hd as [|? ? [k1 [-> H1]] Hd1]; subst.
  inversion Hd1 as [|? ? [k2 [-> H2]] Hd2]; subst.
  inversion Hd2 as [|? ? [k3 [-> H3]] Hd3]; subst.
  inversion Hd3 as [|? ? [k4 [-> H4]] Hd4]; subst.
  inversion Hd4 as [|? ? [k5 [-> H5]] Hd5]; subst.
  inversion Hd5 as [|? ? [k6 [-> H6]] _]; subst.
  exists g, k1, k2, k3, k4, k5, k6.
  split; [exact Hg|split; [exact Hr|split; [reflexivity|]]].
  repeat (constructor; [assumption|]); constructor.
Qed.

(** A valid ticket prints as nine code units, "g조 dddddd", and the printed
    form determines the ticket: two valid tickets that print alike are equal. *)
Theorem formatTicket_inj (t1 t2 : Ticket) :
  ticket_ok t1 -> ticket_ok t2 ->
  length (formatTicket t1) = 9%nat /\ (formatTicket t1 = formatTicket t2 -> t1 = t2).
Proof.
  intros H1 H2.
  destruct (ticket_ok_shape t1 H1) as [g [a1 [a2 [a3 [a4 [a5 [a6 [Hg [Hgr [Hd Ha]]]]]]]]]].
  destruct (ticket_ok_shape t2 H2) as [h [b1 [b2 [b3 [b4 [b5 [b6 [Hh [Hhr [He Hb]]]]]]]]]].
  repeat match goal with H : Forall _ (_ :: _) |- _ => inversion H; subst; clear H end.
  unfold formatTicket, join_digits, js_String_opt. rewrite Hg, Hh, Hd, He. cbn [app concat map].
  rewrite !js_String_digit by lia. split; [reflexivity|].
  intros Heq.
  pose proof (fun i => f_equal (fun l => nth i l 0) Heq) as En.
  pose proof (En 0%nat) as E0; pose proof (En 3%nat) as E1; pose proof (En 4%nat) as E2;
  pose proof (En 5%nat) as E3; pose proof (En 6%nat) as E4; pose proof (En 7%nat) as E5;
  pose proof (En 8%nat) as E6; cbn [nth app] in E0, E1, E2, E3, E4, E5, E6; clear En Heq.
  destruct t1 as [g1 d1], t2 as [g2 d2]. cbn [t_group t_digits] in Hg, Hh, Hd, He. subst.
  repeat f_equal; lia.
Qed.

Lemma formatTicket_inj_witness :
  ticket_ok {| t_group := Some 4%nat; t_digits := map Some [6; 3; 9; 5; 6; 6]%nat |} /\
  ticket_ok {| t_group := Some 4%nat; t_digits := map Some [6; 3; 9; 5; 6; 6]%nat |} /\
  length (formatTicket {| t_group := Some 4%nat; t_digits := map Some [6; 3; 9; 5; 6; 6]%nat |}) = 9%nat.
Proof.
  assert (H : ticket_ok {| t_group := Some 4%nat; t_digits := map Some [6; 3; 9; 5; 6; 6]%nat |}).
  { split; [exists 4%nat; split; [reflexivity|lia]|split; [reflexivity|]].
    repeat constructor; eexists; split; try reflexivity; lia. }
  split; [exact H|split; [exact H|]]. exact (proj1 (formatTicket_inj _ _ H H)).
Defined.
